(** * Orange file-encryption tool: the orchestration core of [main.py] and
    [modules/gui.py], embedded and checked against its specification.

    The development follows the source files:
    - [Version] : [YSTApplication._compare_versions] (gui.py, 776-801);
    - [Effects] : exceptions, results and the trace monad shared by the
                  effectful code;
    - [Gui]     : [process_decrypt_task] (gui.py, 450-565), [decrypt_file]
                  (gui.py, 400-418) and [process_queue] (gui.py, 420-448);
    - [Compat]  : [main] and its legacy branch (main.py, 81-173);
    - [Update]  : [check_for_updates] (gui.py, 645-774);
    - [Demo]    : a small concrete installation to run the definitions on;
    - [Dispatch], [Entry], [Releases] : what the further results about
                  [process_queue], [main] and the update check are stated
                  with;
    - [Check]   : [check_encryption] (gui.py, 344-398) with
                  [display_check_result] and [add_result] (gui.py, 567-585);
    - [Samples], [Scans] : further concrete installations.
    The results come after the definitions, in the same order. *)

From Stdlib Require Import ZArith Ascii String Lia.
From stdpp Require Import base list strings pretty gmap.

Local Open Scope string_scope.
Local Open Scope Z_scope.
Local Open Scope list_scope.

(** ** Version comparison *)

Module Version.

(** [str.split('.')]: cut at every separator; the result is never empty
    ([''.split('.') == ['']]). *)
Fixpoint split (sep : ascii) (s : string) : list string :=
  match s with
  | EmptyString => [EmptyString]
  | String c s' =>
      if Ascii.eqb c sep then EmptyString :: split sep s'
      else match split sep s' with
           | x :: xs => String c x :: xs
           | [] => [String c EmptyString]
           end
  end.

(** The characters [int()] strips from both ends of its argument. *)
Definition is_space (c : ascii) : bool :=
  let n := nat_of_ascii c in
  (((9 <=? n) && (n <=? 13)) || (n =? 32))%nat.

Definition digit (c : ascii) : option Z :=
  let n := nat_of_ascii c in
  if ((48 <=? n) && (n <=? 57))%nat then Some (Z.of_nat (n - 48)) else None.

Fixpoint lstrip (s : list ascii) : list ascii :=
  match s with
  | c :: s' => if is_space c then lstrip s' else s
  | [] => []
  end.

Definition strip (s : list ascii) : list ascii :=
  rev (lstrip (rev (lstrip s))).

(** Decimal digits, a single underscore allowed between two digits. *)
Fixpoint digits (acc : Z) (after_digit : bool) (s : list ascii) : option Z :=
  match s with
  | [] => if after_digit then Some acc else None
  | c :: s' =>
      match digit c with
      | Some d => digits (10 * acc + d) true s'
      | None =>
          if Ascii.eqb c "_"%char && after_digit then digits acc false s'
          else None
      end
  end.

(** [int(x)] on a byte string, base 10: surrounding white space, an
    optional sign, digits.  [None] stands for [ValueError].  Characters
    outside ASCII are bytes here, so they are neither digits nor spaces, and
    the interpreter's optional cap on the number of digits is left out; the
    results below use [py_int] through its type only. *)
Definition py_int (x : string) : option Z :=
  match strip (list_ascii_of_string x) with
  | c :: s' =>
      if Ascii.eqb c "-"%char then Z.opp <$> digits 0 false s'
      else if Ascii.eqb c "+"%char then digits 0 false s'
      else digits 0 false (c :: s')
  | [] => None
  end.

(** [[int(x) for x in version.split('.')]]; [None] when some component
    raises. *)
Definition parts (version : string) : option (list Z) :=
  mapM py_int (split "."%char version).

(** [for i in range(max_len): ...], started at index [i] with [n] rounds
    left.  Indexing is Python's: out of range raises [IndexError], which
    is [None] here. *)
Fixpoint compare_loop (v1_parts v2_parts : list Z) (i n : nat) : option Z :=
  match n with
  | O => Some 0
  | S n' =>
      match v1_parts !! i, v2_parts !! i with
      | Some a, Some b =>
          if a >? b then Some 1
          else if a <? b then Some (-1)
          else compare_loop v1_parts v2_parts (S i) n'
      | _, _ => None
      end
  end.

(** The body of the [try] block. *)
Definition compare_body (version1 version2 : string) : option Z :=
  v1_parts ← parts version1;
  v2_parts ← parts version2;
  let max_len := (length v1_parts `max` length v2_parts)%nat in
  let v1_parts := v1_parts ++ replicate (max_len - length v1_parts) 0 in
  let v2_parts := v2_parts ++ replicate (max_len - length v2_parts) 0 in
  compare_loop v1_parts v2_parts 0 max_len.

(** [except: return 0]. *)
Definition _compare_versions (version1 version2 : string) : Z :=
  default 0 (compare_body version1 version2).

(** *** The comparison as the specification words it *)

Definition pad (n : nat) (l : list Z) : list Z :=
  l ++ replicate (n - length l) 0.

(** The first unequal pair decides. *)
Definition decide_pair (p : Z * Z) : Z :=
  if snd p <? fst p then 1 else -1.

Definition first_unequal (l : list (Z * Z)) : Z :=
  match List.find (λ p, negb (fst p =? snd p)) l with
  | Some p => decide_pair p
  | None => 0
  end.

Definition reference_compare (a b : string) : Z :=
  match mapM py_int (split "."%char a), mapM py_int (split "."%char b) with
  | Some xs, Some ys =>
      let n := (length xs `max` length ys)%nat in
      first_unequal (zip (pad n xs) (pad n ys))
  | _, _ => 0
  end.

End Version.

(** ** Exceptions, results and traces *)

Module Effects.

(** The classes the handlers of this program tell apart.  [requests]
    derives [ConnectTimeout] from both [ConnectionError] and [Timeout], and
    [ReadTimeout] from [Timeout]; everything else is [Other]. *)
Inductive exn_class :=
| Timeout
| ConnectTimeout
| ReadTimeout
| ConnectionError
| Other (name : string).

(** An instance of Python's [Exception]: its class and [str(e)]. *)
Record exn := Exn { exn_class_of : exn_class; str : string }.

Definition isinstance_Timeout (e : exn) : bool :=
  match exn_class_of e with
  | Timeout | ConnectTimeout | ReadTimeout => true
  | _ => false
  end.

Definition isinstance_ConnectionError (e : exn) : bool :=
  match exn_class_of e with
  | ConnectionError | ConnectTimeout => true
  | _ => false
  end.

(** What a call gives back: a value, or a raised exception. *)
Inductive result (A : Type) :=
| Ok (a : A)
| Raise (e : exn).
Arguments Ok {A} a.
Arguments Raise {A} e.

(** The dictionary a classification returns
    ([detector.get_detection_result],
    [check_file_encryption_with_feedback]). *)
Record DetectionResult := {
  file_path : string;
  status : string;
  status_code : Z;
  file_type : option string
}.

(** JSON-like values held by the settings dictionary and by the release
    metadata. *)
Inductive value :=
| VInt (z : Z)
| VStr (s : string)
| VBool (b : bool)
| VNone.

(** Effectful code runs over a world [W] (file system, external program,
    network, log sinks) that every collaborator call may read and change,
    and leaves a trace of events of type [E]. *)
Section Monad.
Context {W E : Type}.

Definition M (A : Type) : Type := W → W * list E * result A.

Definition ret {A} (a : A) : M A := λ w, (w, [], Ok a).

Definition bind {A B} (m : M A) (k : A → M B) : M B := λ w,
  match m w with
  | (w1, t1, Ok a) =>
      match k a w1 with
      | (w2, t2, r) => (w2, t1 ++ t2, r)
      end
  | (w1, t1, Raise e) => (w1, t1, Raise e)
  end.

(** One event, e.g. a line written or a callback scheduled. *)
Definition emit (ev : E) : M unit := λ w, (w, [ev], Ok tt).

(** A call to a collaborator. *)
Definition call {A} (f : W → W * result A) : M A := λ w,
  match f w with
  | (w1, r) => (w1, [], r)
  end.

(** A read of the world. *)
Definition ask {A} (f : W → A) : M A := λ w, (w, [], Ok (f w)).

Definition raise {A} (e : exn) : M A := λ w, (w, [], Raise e).

(** [try: m except Exception as e: h e]. *)
Definition try_except {A} (m : M A) (h : exn → M A) : M A := λ w,
  match m w with
  | (w1, t1, Raise e) =>
      match h e w1 with
      | (w2, t2, r) => (w2, t1 ++ t2, r)
      end
  | ok => ok
  end.

(** [try: m finally: f]. *)
Definition try_finally {A} (m : M A) (f : M unit) : M A := λ w,
  match m w with
  | (w1, t1, r) =>
      match f w1 with
      | (w2, t2, Ok _) => (w2, t1 ++ t2, r)
      | (w2, t2, Raise e) => (w2, t1 ++ t2, Raise e)
      end
  end.

(** [for x in l: body x]. *)
Fixpoint for_each {A} (l : list A) (body : A → M unit) : M unit :=
  match l with
  | [] => ret tt
  | x :: l' => bind (body x) (λ _, for_each l' body)
  end.

Definition trace_of {A} (x : W * list E * result A) : list E := snd (fst x).
Definition outcome_of {A} (x : W * list E * result A) : result A := snd x.
Definition world_of {A} (x : W * list E * result A) : W := fst (fst x).
End Monad.
Arguments M : clear implicits.

Declare Scope eff_scope.
Delimit Scope eff_scope with eff.
Notation "x <- m ;; k" := (bind m (λ x, k))
  (at level 100, m at next level, right associativity) : eff_scope.
Notation "m ;; k" := (bind m (λ _, k))
  (at level 100, right associativity) : eff_scope.

End Effects.

(** ** The graphical front end ([modules/gui.py]) *)

Module Gui.
Import Effects.
Local Open Scope eff_scope.

(** Arguments of [logger_manager.log_file_operation] and
    [logger_manager.log_operation]. *)
Inductive log_entry :=
| FileOperation (operation path outcome : string)
                (file_size : option Z) (ftype : option string)
| Operation (operation target outcome : string) (detail : option string).

(** The closures handed to [self.after(0, ...)] by the worker.  A Python
    closure reads the variables of the enclosing call when it runs, not when
    it is created.  [file_path], [result] and [decrypted_path] are bound
    once and stay bound, so their values are carried here; the variable [e]
    of [except Exception as e] is unbound again at the end of the handler,
    so [CbError] carries no exception and reads [e] when it runs. *)
Inductive callback :=
| CbSkip (path : string) (result : DetectionResult)
| CbDecrypted (path decrypted_path : string)
| CbVerified
| CbVerifyWarning
| CbFailed (path : string)
| CbError (path : string).

Inductive event :=
| EvClassify (path : string)
| EvDriver (path : string) (program_path : option value)
| EvAfter (cb : callback)
| EvLog (entry : log_entry)
| EvWarning (message : string)
| EvBindExc (e : exn)
| EvDelExc
| EvPut (task : string * string)
| EvShowWarning (title message : string)
| EvClearResults
| EvAddResult (message tag : string).

(** One entry of the result panel: [add_result(message, tag)]. *)
Record report := { message : string; tag : string }.

Definition NameError : exn :=
  Exn (Other "NameError") "cannot access free variable 'e'".

(** Running a scheduled closure; [e] is the current binding of the
    handler's variable, [None] when it is unbound. *)
Definition run_callback (e : option exn) (cb : callback) : result report :=
  match cb with
  | CbSkip path r =>
      Ok {| message := "跳过非加密文件: " +:+ path +:+ " (" +:+ status r +:+ ")";
            tag := "info" |}
  | CbDecrypted path decrypted_path =>
      Ok {| message := "解密成功: " +:+ path +:+ " -> " +:+ decrypted_path;
            tag := "success" |}
  | CbVerified =>
      Ok {| message := "复核成功: 文件未加密"; tag := "success" |}
  | CbVerifyWarning =>
      Ok {| message := "复核警告: 文件可能仍为加密状态"; tag := "warning" |}
  | CbFailed path =>
      Ok {| message := "解密失败: " +:+ path; tag := "error" |}
  | CbError path =>
      match e with
      | Some e =>
          Ok {| message := "处理文件时出错: " +:+ path +:+ " - " +:+ str e;
                tag := "error" |}
      | None => Raise NameError
      end
  end.

(** The binding of [e] after a trace. *)
Definition exc_after (t : list event) : option exn :=
  fold_left (λ cur ev,
               match ev with
               | EvBindExc e => Some e
               | EvDelExc => None
               | _ => cur
               end) t None.

(** Python truthiness of the Driver's answer: [None] and [''] are false. *)
Definition truthy (decrypted_path : option string) : option string :=
  match decrypted_path with
  | Some EmptyString => None
  | other => other
  end.

(** Entries of the operation log and warnings of the logger, as opposed
    to what the worker signals to the scheduler and the result panel. *)
Definition is_logging (ev : event) : bool :=
  match ev with
  | EvLog _ | EvWarning _ => true
  | _ => false
  end.

Definition signals (t : list event) : list event :=
  List.filter (λ ev, negb (is_logging ev)) t.

Definition quiet (t : list event) : Prop :=
  Forall (λ ev, is_logging ev = true) t.

(** The [verified] field of the specification's outcome, read off the
    closures a worker scheduled. *)
Inductive VerifyState := NotApplicable | Passed | Failed.

Definition is_verified (ev : event) : bool :=
  match ev with
  | EvAfter CbVerified => true
  | _ => false
  end.

Definition is_verify_warning (ev : event) : bool :=
  match ev with
  | EvAfter CbVerifyWarning => true
  | _ => false
  end.

Definition verify_state_of (t : list event) : VerifyState :=
  if existsb is_verified t then Passed
  else if existsb is_verify_warning t then Failed
  else NotApplicable.

(** The reports the result panel gets when every scheduled closure runs
    with [e] bound as [exc]; a closure that raises adds nothing. *)
Definition rendered (exc : option exn) (t : list event) : list report :=
  omap (λ ev, match ev with
              | EvAfter cb =>
                  match run_callback exc cb with
                  | Ok r => Some r
                  | Raise _ => None
                  end
              | _ => None
              end) t.

(** The collaborators of the worker, none of them in this file's sources:
    the detector, the file processor (the Driver), the configuration
    manager, [os.path.getsize] and the operation log. *)
Record Env (W : Type) := {
  get_detection_result : string → W → W * result DetectionResult;
  process_encrypted_file :
    string → option value → W → W * result (option string);
  get_settings : W → W * result (gmap string value);
  getsize : string → W → W * result Z;
  get_logger_manager : W → W * result unit;
  log_entry_call : log_entry → W → W * result unit
}.
Arguments get_detection_result {W}.
Arguments process_encrypted_file {W}.
Arguments get_settings {W}.
Arguments getsize {W}.
Arguments get_logger_manager {W}.
Arguments log_entry_call {W}.

Section Worker.
Context {W : Type} (env : Env W).

Abbreviation M := (Effects.M W event).

(** [file_size = None; try: file_size = os.path.getsize(p) except: pass]. *)
Definition file_size_of (path : string) : M (option Z) :=
  try_except (n <- call (getsize env path);; ret (Some n)) (λ _, ret None).

Definition log (entry : log_entry) : M unit :=
  emit (EvLog entry);; call (log_entry_call env entry).

(** [try: from .logger import get_logger_manager; ...
     except Exception as e: self.logger.warning(...)]. *)
Definition guarded_log (body : M unit) : M unit :=
  try_except (call (get_logger_manager env);; body)
    (λ e, emit (EvWarning ("记录操作日志失败: " +:+ str e))).

Definition verify (path decrypted_path : string) (result : DetectionResult)
  : M unit :=
  emit (EvClassify decrypted_path);;
  verify_result <- call (get_detection_result env decrypted_path);;
  if status_code verify_result =? 0 then
    emit (EvAfter CbVerified);;
    guarded_log
      (file_size <- file_size_of path;;
       log (FileOperation "文件解密" path "成功并复核通过"
              file_size (file_type result));;
       log (Operation "解密复核" decrypted_path "通过"
              (Some "文件已成功解密")))
  else
    emit (EvAfter CbVerifyWarning);;
    guarded_log
      (file_size <- file_size_of path;;
       log (FileOperation "文件解密" path "部分成功"
              file_size (file_type result));;
       log (Operation "解密复核" decrypted_path "警告"
              (Some "文件可能仍为加密状态"))).

(** The body of the outer [try]. *)
Definition decrypt_task_body (path : string) : M unit :=
  emit (EvClassify path);;
  result <- call (get_detection_result env path);;
  if negb (status_code result =? 1) then
    emit (EvAfter (CbSkip path result));;
    guarded_log (log (FileOperation "解密跳过" path "非加密文件" None None))
  else
    settings <- call (get_settings env);;
    let program_path := settings !! "wps_path" in
    emit (EvDriver path program_path);;
    decrypted_path <- call (process_encrypted_file env path program_path);;
    match truthy decrypted_path with
    | Some decrypted_path =>
        emit (EvAfter (CbDecrypted path decrypted_path));;
        verify path decrypted_path result
    | None =>
        emit (EvAfter (CbFailed path));;
        guarded_log (log (FileOperation "文件解密" path "失败" None None))
    end.

(** [except Exception as e:] binds [e], runs the handler, and unbinds
    [e] when the handler is left. *)
Definition decrypt_task_handler (path : string) (e : exn) : M unit :=
  emit (EvBindExc e);;
  emit (EvAfter (CbError path));;
  guarded_log
    (log (Operation "处理异常" path "失败" (Some ("错误: " +:+ str e))));;
  emit EvDelExc.

Definition process_decrypt_task (path : string) : M unit :=
  try_except (decrypt_task_body path) (decrypt_task_handler path).

End Worker.

(** *** Batch enqueueing: [decrypt_file] *)

(** A directory tree as [os.walk] sees it: an entry is a directory with
    its entries, or anything else (what [os.walk] lists under [files]). *)
Inductive node :=
| File (name : string)
| Dir (name : string) (entries : list node).

Definition name_of (n : node) : string :=
  match n with
  | File name => name
  | Dir name _ => name
  end.

Definition is_dir (n : node) : bool :=
  match n with
  | Dir _ _ => true
  | File _ => false
  end.

Definition dirnames (entries : list node) : list string :=
  name_of <$> filter (λ n, is_dir n = true) entries.

Definition filenames (entries : list node) : list string :=
  name_of <$> filter (λ n, is_dir n = false) entries.

(** What the file system answers to [os.path.isdir] and [os.walk], and
    [os.path.join]. *)
Record FsEnv (W : Type) := {
  lookup_node : string → W → option node;
  join : string → string → string
}.
Arguments lookup_node {W}.
Arguments join {W}.

Definition task : Type := string * string.

Section Batch.
Context {W : Type} (fs : FsEnv W).

Abbreviation M := (Effects.M W event).

(** [os.walk(top)], top-down: the triple of the directory itself, then
    the walks of its sub-directories in order. *)
Fixpoint walk (top : string) (n : node)
  : list (string * list string * list string) :=
  match n with
  | File _ => []
  | Dir _ entries =>
      (top, dirnames entries, filenames entries) ::
      flat_map (λ c, walk (join fs top (name_of c)) c) entries
  end.

(** The paths [os.path.join(root, file)] of a walk, in the order the
    two nested loops visit them. *)
Definition walked_files
    (triples : list (string * list string * list string)) : list string :=
  flat_map (λ '(root, _, files), join fs root <$> files) triples.

(** Every entry that is not a directory below a directory, with its
    path: the reference enumeration, entry by entry and depth first. *)
Fixpoint files_below (top : string) (n : node) : list string :=
  match n with
  | File _ => []
  | Dir _ entries =>
      flat_map (λ c, match c with
                     | File name => [join fs top name]
                     | Dir name _ => files_below (join fs top name) c
                     end) entries
  end.

Definition put (t : task) : M unit := emit (EvPut t).

Definition decrypt_file (path : string) : M unit :=
  if String.eqb path "" then
    emit (EvShowWarning "警告" "请先选择文件或目录！")
  else
    emit EvClearResults;;
    emit (EvAddResult ("正在解密: " +:+ path) "debug");;
    n <- ask (lookup_node fs path);;
    match n with
    | Some (Dir _ _ as d) =>
        for_each (walk path d)
          (λ '(root, _, files),
             for_each files (λ file, put ("decrypt", join fs root file)))
    | _ => put ("decrypt", path)
    end.
End Batch.

Fixpoint count_files (n : node) : nat :=
  match n with
  | File _ => 1
  | Dir _ entries => list_sum (count_files <$> entries)
  end.

(** The tasks a trace puts on the queue, in order. *)
Definition enqueued (t : list event) : list task :=
  omap (λ ev, match ev with EvPut t => Some t | _ => None end) t.

Definition is_classify (ev : event) : bool :=
  match ev with
  | EvClassify _ => true
  | _ => false
  end.

(** *** The dispatch loop: [process_queue] *)

(** [self.config_manager.get_settings().get('max_threads', 5)]. *)
Definition max_threads_of (settings : gmap string value) : value :=
  default (VInt 5) (settings !! "max_threads").

Definition TypeError : exn :=
  Exn (Other "TypeError") "'<' not supported between instances".

(** [n < v] for an [int] on the left: numbers compare ([bool] is a
    subclass of [int]), anything else raises [TypeError]. *)
Definition int_lt (n : Z) (v : value) : result bool :=
  match v with
  | VInt z => Ok (n <? z)
  | VBool b => Ok (n <? (if b then 1 else 0))
  | VStr _ | VNone => Raise TypeError
  end.

(** The scheduler's state.  A thread object is named by its rank of
    creation; [alive] holds the threads that were started and have not
    finished, each with the path it is working on. *)
Record sched := Sched {
  task_queue : list task;
  thread_pool : list nat;
  alive : gmap nat string;
  started : nat
}.

Definition initial : sched := Sched [] [] ∅ 0.

(** [while len(self.thread_pool) < self.max_threads
          and not self.task_queue.empty(): ...].  A task of another type
    is taken off the queue and dropped; [thread.start()] is taken to
    succeed. *)
Fixpoint start_threads (max_threads : value) (queue : list task)
    (pool : list nat) (alive : gmap nat string) (started : nat)
    : result sched :=
  match int_lt (Z.of_nat (length pool)) max_threads with
  | Raise e => Raise e
  | Ok false => Ok (Sched queue pool alive started)
  | Ok true =>
      match queue with
      | [] => Ok (Sched queue pool alive started)
      | (task_type, path) :: queue' =>
          if String.eqb task_type "decrypt" then
            start_threads max_threads queue' (pool ++ [started])
              (<[started := path]> alive) (S started)
          else
            start_threads max_threads queue' pool alive started
      end
  end.

(** [list.remove(x)]: drop the first occurrence. *)
Fixpoint remove_first (x : nat) (l : list nat) : list nat :=
  match l with
  | [] => []
  | y :: l' => if decide (x = y) then l' else y :: remove_first x l'
  end.

(** [for thread in self.thread_pool:
       if not thread.is_alive(): self.thread_pool.remove(thread)].
    The iterator of a Python list is an index into the list as it is at
    that moment; [fuel] bounds the number of rounds. *)
Fixpoint clean_loop (alive : gmap nat string) (pool : list nat)
    (i fuel : nat) : list nat :=
  match fuel with
  | O => pool
  | S fuel' =>
      match pool !! i with
      | None => pool
      | Some thread =>
          if decide (is_Some (alive !! thread)) then
            clean_loop alive pool (S i) fuel'
          else
            clean_loop alive (remove_first thread pool) (S i) fuel'
      end
  end.

Definition clean_threads (st : sched) : sched :=
  Sched (task_queue st)
        (clean_loop (alive st) (thread_pool st) 0 (length (thread_pool st)))
        (alive st) (started st).

Definition start_phase (max_threads : value) (st : sched) : result sched :=
  start_threads max_threads (task_queue st) (thread_pool st)
    (alive st) (started st).

(** One tick with no worker finishing in between; on an exception the
    handler only logs and re-arms the timer. *)
Definition process_queue (max_threads : value) (st : sched) : sched :=
  match start_phase max_threads st with
  | Ok st1 => clean_threads st1
  | Raise _ => st
  end.

(** What can happen to the scheduler: a task is put on the queue, the
    two loops of a tick run, and a worker thread returns at any moment,
    also between the two loops. *)
Inductive step (max_threads : value) : sched → sched → Prop :=
| step_put t st :
    step max_threads st
      (Sched (task_queue st ++ [t]) (thread_pool st) (alive st) (started st))
| step_start st st1 :
    start_phase max_threads st = Ok st1 →
    step max_threads st st1
| step_start_error st e :
    start_phase max_threads st = Raise e →
    step max_threads st st
| step_clean st :
    step max_threads st (clean_threads st)
| step_exit thread st :
    is_Some (alive st !! thread) →
    step max_threads st
      (Sched (task_queue st) (thread_pool st)
             (delete thread (alive st)) (started st)).

Inductive reachable (max_threads : value) : sched → Prop :=
| reach_initial : reachable max_threads initial
| reach_step st st1 :
    reachable max_threads st → step max_threads st st1 →
    reachable max_threads st1.

(** The number of workers started and not yet finished. *)
Definition running (st : sched) : nat := size (alive st).

(** How many threads the test of the admission loop lets into the pool. *)
Definition capacity (max_threads : value) : nat :=
  match max_threads with
  | VInt z => Z.to_nat z
  | VBool b => if b then 1 else 0
  | VStr _ | VNone => 0
  end.

(** What holds of every state the scheduler goes through: a live worker
    is still in the pool, the pool holds each thread once, names threads
    already created, and is never longer than the capacity. *)
Record sched_inv (max_threads : value) (st : sched) : Prop := {
  inv_alive : ∀ t, is_Some (alive st !! t) → t ∈ thread_pool st;
  inv_created : ∀ t, t ∈ thread_pool st → (t < started st)%nat;
  inv_nodup : NoDup (thread_pool st);
  inv_capacity : (length (thread_pool st) ≤ capacity max_threads)%nat
}.

End Gui.

(** ** The command-line entry point ([main.py]) *)

Module Compat.
Import Effects.
Local Open Scope eff_scope.

(** What [print] writes, one constructor per [print] statement of
    [main]; [render] gives the text. *)
Inductive line :=
| PUsage
| PVersion
| PStatus (status path : string)
| PTrying (path : string)
| PDecrypted (decrypted_path : string)
| PVerifyOk
| PVerifyWarning
| PDecryptFailed
| PSkipUnencrypted
| PSkipUnrecognized
| PNotFound (path : string)
| PError (e : string).

Definition render (l : line) : string :=
  match l with
  | PUsage => "YST5.1 文件加密检测与解密工具 ..."
  | PVersion => "YST5.1 文件加密检测与解密工具 v6.0"
  | PStatus status path => status +:+ ": " +:+ path
  | PTrying path => "尝试解密: " +:+ path
  | PDecrypted decrypted_path => "解密成功: " +:+ decrypted_path
  | PVerifyOk => "复核成功: 文件未加密"
  | PVerifyWarning => "复核警告: 文件可能仍为加密状态"
  | PDecryptFailed => "解密失败"
  | PSkipUnencrypted => "文件未加密，跳过解密"
  | PSkipUnrecognized => "文件未识别，跳过处理"
  | PNotFound path => "文件不存在: " +:+ path
  | PError e => "程序运行出错: " +:+ e
  end.

Inductive event :=
| EvPrint (l : line)
| EvLogInfo (message : string)
| EvLogWarning (message : string)
| EvLogError (message : string)
| EvClassify (path : string)
| EvDriver (path : string) (program_path : option value)
| EvRunCli
| EvRunGui
| EvTraceback.

(** The collaborators of [main]: [os.path.exists] and the imported
    modules, none of them in this file's sources. *)
Record Env (W : Type) := {
  path_exists : string → W → bool;
  check_file_encryption_with_feedback :
    string → W → W * result DetectionResult;
  open_and_process_file :
    string → option value → W → W * result (option string);
  get_config_manager : W → W * result unit;
  get_logger : W → W * result unit;
  get_settings : W → W * result (gmap string value);
  run_cli : W → W * result unit;
  run_gui : W → W * result unit
}.
Arguments path_exists {W}.
Arguments check_file_encryption_with_feedback {W}.
Arguments open_and_process_file {W}.
Arguments get_config_manager {W}.
Arguments get_logger {W}.
Arguments get_settings {W}.
Arguments run_cli {W}.
Arguments run_gui {W}.

(** [str.lower()] on ASCII letters. *)
Definition lower_char (c : ascii) : ascii :=
  let n := nat_of_ascii c in
  if ((65 <=? n) && (n <=? 90))%nat then ascii_of_nat (n + 32) else c.

Fixpoint lower (s : string) : string :=
  match s with
  | EmptyString => EmptyString
  | String c s' => String (lower_char c) (lower s')
  end.

(** [x in (a, b, ...)] on strings. *)
Definition among (x : string) (l : list string) : bool :=
  existsb (String.eqb x) l.

(** Python truthiness of a settings value. *)
Definition truth (v : value) : bool :=
  match v with
  | VInt z => negb (z =? 0)
  | VStr s => negb (String.eqb s "")
  | VBool b => b
  | VNone => false
  end.

Definition truthy (decrypted_path : option string) : option string :=
  match decrypted_path with
  | Some EmptyString => None
  | other => other
  end.

Section Main.
Context {W : Type} (env : Env W).

Abbreviation M := (Effects.M W event).

Definition print (l : line) : M unit := emit (EvPrint l).

(** The body of [for path in paths:]. *)
Definition process_path (path : string) : M unit :=
  found <- ask (path_exists env path);;
  if found : bool then
    emit (EvClassify path);;
    result <- call (check_file_encryption_with_feedback env path);;
    print (PStatus (status result) path);;
    emit (EvLogInfo (status result +:+ ": " +:+ path));;
    if status_code result =? 1 then
      print (PTrying path);;
      emit (EvLogInfo ("尝试解密: " +:+ path));;
      settings <- call (get_settings env);;
      let program_path := settings !! "wps_path" in
      emit (EvDriver path program_path);;
      decrypted_path <- call (open_and_process_file env path program_path);;
      match truthy decrypted_path with
      | Some decrypted_path =>
          print (PDecrypted decrypted_path);;
          emit (EvLogInfo
                  ("解密成功: " +:+ path +:+ " -> " +:+ decrypted_path));;
          emit (EvClassify decrypted_path);;
          verify_result <-
            call (check_file_encryption_with_feedback env decrypted_path);;
          if status_code verify_result =? 0 then
            print PVerifyOk;;
            emit (EvLogInfo ("复核成功: " +:+ decrypted_path))
          else
            print PVerifyWarning;;
            emit (EvLogWarning ("复核警告: " +:+ decrypted_path))
      | None =>
          print PDecryptFailed;;
          emit (EvLogError ("解密失败: " +:+ path))
      end
    else if status_code result =? 0 then
      print PSkipUnencrypted;;
      emit (EvLogInfo ("文件未加密，跳过解密: " +:+ path))
    else
      print PSkipUnrecognized;;
      emit (EvLogWarning ("文件未识别，跳过处理: " +:+ path))
  else
    print (PNotFound path);;
    emit (EvLogError ("文件不存在: " +:+ path)).

(** The body of the [try] once the logger is there. *)
Definition dispatch (argv : list string) : M unit :=
  emit (EvLogInfo "程序启动");;
  match argv with
  | _ :: first :: rest =>
      let first_arg := lower first in
      if among first_arg ["-h"; "--help"; "help"] then print PUsage
      else if among first_arg ["-v"; "--version"; "version"] then
        print PVersion
      else if among first_arg ["check"; "unlock"; "scan"; "batch-unlock"]
      then emit EvRunCli;; call (run_cli env)
      else
        emit (EvLogInfo "使用兼容模式处理文件");;
        for_each (first :: rest) process_path
  | _ =>
      emit (EvLogInfo "启动图形界面");;
      emit EvRunGui;;
      call (run_gui env)
  end.

(** [except Exception as e:], with [config_manager] and [logger] bound
    or still [None]. *)
Definition on_error (have_config have_logger : bool) (e : exn) : M unit :=
  print (PError (str e));;
  (if have_logger then emit (EvLogError ("程序运行出错: " +:+ str e))
   else ret tt);;
  if have_config then
    settings <- call (get_settings env);;
    if truth (default (VBool false) (settings !! "debug"))
    then emit EvTraceback else ret tt
  else ret tt.

(** [main]; asynchronous interruption ([KeyboardInterrupt]) is left
    out. *)
Definition main (argv : list string) : M unit :=
  config_manager <-
    try_except (call (get_config_manager env);; ret (@None exn))
               (λ e, ret (Some e));;
  match config_manager with
  | Some e => on_error false false e
  | None =>
      logger <-
        try_except (call (get_logger env);; ret (@None exn))
                   (λ e, ret (Some e));;
      match logger with
      | Some e => on_error true false e
      | None =>
          try_finally
            (try_except (dispatch argv) (on_error true true))
            (emit (EvLogInfo "程序结束"))
      end
  end.

End Main.

(** The six outcomes the legacy mode tells apart, read off the line that
    closes the handling of a path. *)
Inductive category :=
| NotFound
| UnencryptedSkipped
| UnrecognizedSkipped
| DecryptedVerified
| DecryptedUnverified
| DecryptionFailed.

Definition category_of (l : line) : option category :=
  match l with
  | PNotFound _ => Some NotFound
  | PSkipUnencrypted => Some UnencryptedSkipped
  | PSkipUnrecognized => Some UnrecognizedSkipped
  | PVerifyOk => Some DecryptedVerified
  | PVerifyWarning => Some DecryptedUnverified
  | PDecryptFailed => Some DecryptionFailed
  | _ => None
  end.

Definition outcomes (t : list event) : list category :=
  omap (λ ev, match ev with EvPrint l => category_of l | _ => None end) t.

(** The contract the specification gives the collaborators: the
    classifier is total, the Driver signals failure by returning no path,
    and configuration and logger are there. *)
Definition returns {W A} (f : W → W * result A) : Prop :=
  ∀ w, ∃ w1 a, f w = (w1, Ok a).

Record well_behaved {W} (env : Env W) : Prop := {
  classifier_returns : ∀ path, returns (check_file_encryption_with_feedback env path);
  driver_returns : ∀ path program, returns (open_and_process_file env path program);
  settings_return : returns (get_settings env);
  config_manager_returns : returns (get_config_manager env);
  logger_returns : returns (get_logger env)
}.

End Compat.

(** ** The online update check ([check_for_updates]) *)

Module Update.
Import Effects.
Local Open Scope eff_scope.

(** What the routine reads of a [requests] response: the HTTP status and
    the outcome of [response.json()]; a body that is not a JSON object
    makes the first [.get] raise and is counted with the raising ones. *)
Record response := {
  http_status : Z;
  json : result (gmap string value)
}.

(** The dialogs deferred to the main thread with [self.after(0, ...)];
    only their scheduling is modelled. *)
Inductive dialog :=
| AskUpdate (message : string) (download_url : value)
| InfoLatest (current_version : string)
| WarnHttp (http_status : Z)
| WarnTimeout
| WarnConnection
| ErrorFailed.

Inductive event :=
| EvSetStatus (text : string)
| EvShowWarning (title message : string)
| EvLogInfo (message : string)
| EvLogOperation (operation target outcome : string) (detail : option string)
| EvHttpGet (url : string) (timeout : Z)
| EvAfter (d : dialog)
| EvThreadStart.

Record Env (W : Type) := {
  REQUESTS_AVAILABLE : bool;
  requests_get : string → Z → W → W * result response;
  get_logger_manager : W → W * result unit;
  log_operation :
    string → string → string → option string → W → W * result unit
}.
Arguments REQUESTS_AVAILABLE {W}.
Arguments requests_get {W}.
Arguments get_logger_manager {W}.
Arguments log_operation {W}.

Definition api_url : string :=
  "https://api.github.com/repos/YST-Team/file-encryption-tool/releases/latest".

Definition current_version : string := "5.1".

Definition AttributeError : exn :=
  Exn (Other "AttributeError") "object has no attribute 'lstrip'".
Definition TypeError : exn :=
  Exn (Other "TypeError") "object is not subscriptable".
Definition NameError : exn :=
  Exn (Other "NameError") "name 'logger_manager' is not defined".

(** [s.lstrip('v')]. *)
Fixpoint lstrip_v (s : string) : string :=
  match s with
  | String c s' => if Ascii.eqb c "v"%char then lstrip_v s' else s
  | EmptyString => EmptyString
  end.

Section Thread.
Context {W : Type} (env : Env W).

Abbreviation M := (Effects.M W event).

(** [try: logger_manager.log_operation(...) except: pass]; the name
    [logger_manager] is bound only if the import at the start went
    through. *)
Definition quiet_log (bound : bool) (operation target outcome : string)
    (detail : option string) : M unit :=
  try_except
    (if bound then
       emit (EvLogOperation operation target outcome detail);;
       call (log_operation env operation target outcome detail)
     else raise NameError)
    (λ _, ret tt).

(** Up to the request: status line, log line, and the guarded import
    of the operation log.  Returns whether [logger_manager] is bound. *)
Definition prelude : M bool :=
  emit (EvSetStatus "正在检查新版本...");;
  emit (EvLogInfo "开始检查新版本");;
  bound <- try_except (call (get_logger_manager env);; ret true)
                      (λ _, ret false);;
  quiet_log bound "版本检查" "online" "进行中" None;;
  ret bound.

Definition lstrip_value (v : value) : M string :=
  match v with
  | VStr s => ret (lstrip_v s)
  | _ => raise AttributeError
  end.

(** [release_notes[:200]] inside the message. *)
Definition first_200 (v : value) : M string :=
  match v with
  | VStr s => ret (String.substring 0 200 s)
  | _ => raise TypeError
  end.

(** From the request to the end of the [try] block. *)
Definition fetch (bound : bool) : M unit :=
  emit (EvHttpGet api_url 10);;
  response <- call (requests_get env api_url 10);;
  if http_status response =? 200 then
    release_info <- call (λ w, (w, json response));;
    latest_version <-
      lstrip_value (default (VStr "") (release_info !! "tag_name"));;
    let download_url := default (VStr "") (release_info !! "html_url") in
    let release_notes := default (VStr "") (release_info !! "body") in
    if Version._compare_versions latest_version current_version >? 0 then
      emit (EvSetStatus "发现新版本！");;
      notes <- first_200 release_notes;;
      let message :=
        "发现新版本：" +:+ latest_version +:+ " 当前版本：" +:+
        current_version +:+ " 最新版本：" +:+ latest_version +:+
        " 更新说明：" +:+ notes +:+ "... 是否前往下载页面？" in
      quiet_log bound "版本检查" "online" "发现新版本"
        (Some ("当前: " +:+ current_version +:+ ", 最新: " +:+
               latest_version));;
      emit (EvAfter (AskUpdate message download_url))
    else
      emit (EvSetStatus "已是最新版本");;
      emit (EvAfter (InfoLatest current_version));;
      quiet_log bound "版本检查" "online" "已是最新版本"
        (Some ("当前版本: " +:+ current_version))
  else
    emit (EvSetStatus "检查失败");;
    emit (EvAfter (WarnHttp (http_status response)));;
    quiet_log bound "版本检查" "online" "失败"
      (Some ("HTTP状态码: " +:+ pretty (http_status response))).

(** The three [except] clauses, tried in the order of the source. *)
Definition handlers (bound : bool) (e : exn) : M unit :=
  if isinstance_Timeout e then
    emit (EvSetStatus "检查超时");;
    emit (EvAfter WarnTimeout);;
    quiet_log bound "版本检查" "online" "超时" (Some "网络连接超时")
  else if isinstance_ConnectionError e then
    emit (EvSetStatus "网络错误");;
    emit (EvAfter WarnConnection);;
    quiet_log bound "版本检查" "online" "网络错误" (Some "连接失败")
  else
    emit (EvSetStatus "检查失败");;
    emit (EvAfter ErrorFailed);;
    quiet_log bound "版本检查" "online" "异常"
      (Some ("错误: " +:+ str e)).

Definition check_updates_thread : M unit :=
  bound <- prelude;;
  try_except (fetch bound) (handlers bound).

(** The routine itself: it only starts the thread. *)
Definition check_for_updates : M unit :=
  if REQUESTS_AVAILABLE env then emit EvThreadStart
  else
    emit (EvSetStatus "功能不可用");;
    emit (EvShowWarning "功能不可用"
            "版本检测功能需要requests模块，请先安装：pip install requests").

End Thread.

(** The texts the status line is set to, in order, and the one it shows
    once a trace is over. *)
Definition statuses (t : list event) : list string :=
  omap (λ ev, match ev with EvSetStatus s => Some s | _ => None end) t.

Definition final_status (t : list event) : option string :=
  last (statuses t).

(** The requests a trace issues: URL and timeout in seconds. *)
Definition requests (t : list event) : list (string * Z) :=
  omap (λ ev, match ev with
              | EvHttpGet url timeout => Some (url, timeout)
              | _ => None
              end) t.

(** Traces that only write to the operation log or schedule a dialog. *)
Definition is_background (ev : event) : bool :=
  match ev with
  | EvLogOperation _ _ _ _ | EvAfter _ | EvLogInfo _ => true
  | _ => false
  end.

Definition background (t : list event) : Prop :=
  Forall (λ ev, is_background ev = true) t.

End Update.

(** ** A small concrete installation

    Three files and a Driver that knows one of them, used to run the
    definitions above: [plain.txt] is unencrypted, [secret.doc] is
    encrypted and decrypts to [secret.dec.doc], reading [locked.doc] raises,
    and anything else is unrecognised. *)

Module Demo.
Import Effects.

Definition PermissionError : exn :=
  Exn (Other "PermissionError") "access denied".

Definition detect (path : string) : DetectionResult :=
  if String.eqb path "plain.txt" then Build_DetectionResult path "未加密" 0 None
  else if String.eqb path "secret.doc" then
    Build_DetectionResult path "已加密" 1 (Some "doc")
  else if String.eqb path "secret.dec.doc" then
    Build_DetectionResult path "未加密" 0 (Some "doc")
  else if String.eqb path "unreadable.doc" then
    Build_DetectionResult path "文件不存在" (-1) None
  else Build_DetectionResult path "未识别" 2 None.

Definition classify (path : string) (w : unit) : unit * result DetectionResult :=
  (w, if String.eqb path "locked.doc" then Raise PermissionError
      else Ok (detect path)).

Definition driver (path : string) (program_path : option value) (w : unit)
  : unit * result (option string) :=
  (w, if String.eqb path "secret.doc" then Ok (Some "secret.dec.doc")
      else Ok None).

Definition settings : gmap string value :=
  {[ "wps_path" := VStr "/opt/wps/wps"; "max_threads" := VInt 2 ]}.

Definition gui_env : Gui.Env unit := {|
  Gui.get_detection_result := classify;
  Gui.process_encrypted_file := driver;
  Gui.get_settings := λ w, (w, Ok settings);
  Gui.getsize := λ _ w, (w, Ok 10);
  Gui.get_logger_manager := λ w, (w, Ok tt);
  Gui.log_entry_call := λ _ w, (w, Ok tt)
|}.

Definition compat_env : Compat.Env unit := {|
  Compat.path_exists := λ path _, negb (String.eqb path "missing.doc");
  Compat.check_file_encryption_with_feedback := λ path w, (w, Ok (detect path));
  Compat.open_and_process_file := driver;
  Compat.get_config_manager := λ w, (w, Ok tt);
  Compat.get_logger := λ w, (w, Ok tt);
  Compat.get_settings := λ w, (w, Ok settings);
  Compat.run_cli := λ w, (w, Ok tt);
  Compat.run_gui := λ w, (w, Ok tt)
|}.

(** A directory with two files and a sub-directory holding one more. *)
Definition tree : Gui.node :=
  Gui.Dir "docs"
    [Gui.File "a.doc";
     Gui.Dir "old" [Gui.File "b.doc"];
     Gui.File "c.txt"].

Definition fs_env : Gui.FsEnv unit := {|
  Gui.lookup_node := λ path _,
    if String.eqb path "docs" then Some tree else None;
  Gui.join := λ a b, a +:+ "/" +:+ b
|}.

(** A network whose every request raises [e]. *)
Definition update_env (e : exn) : Update.Env unit := {|
  Update.REQUESTS_AVAILABLE := true;
  Update.requests_get := λ _ _ w, (w, Raise e);
  Update.get_logger_manager := λ w, (w, Ok tt);
  Update.log_operation := λ _ _ _ _ w, (w, Ok tt)
|}.

End Demo.

(** ** More of the dispatch loop: accounting and the clean-up pass *)

Module Dispatch.
Import Effects Gui.

Definition is_decrypt (t : task) : bool := String.eqb (fst t) "decrypt".

(** The paths of the decrypt tasks of a queue, in order. *)
Definition decrypt_paths (queue : list task) : list string :=
  snd <$> List.filter is_decrypt queue.

(** The decrypt tasks a state accounts for: those that got a thread and
    those still waiting. *)
Definition accounted (st : sched) : nat :=
  (started st + length (decrypt_paths (task_queue st)))%nat.

(** Every other element of a list, starting with the second. *)
Fixpoint odds (l : list nat) : list nat :=
  match l with
  | _ :: y :: l' => y :: odds l'
  | _ => []
  end.

End Dispatch.

(** ** Further installations and vocabulary *)

Module Samples.
Import Effects.

(** The installation of [Demo] with an operation log that cannot be
    imported. *)
Definition gui_env_without_log : Gui.Env unit := {|
  Gui.get_detection_result := Demo.classify;
  Gui.process_encrypted_file := Demo.driver;
  Gui.get_settings := λ w, (w, Ok Demo.settings);
  Gui.getsize := λ _ w, (w, Raise Demo.PermissionError);
  Gui.get_logger_manager :=
    λ w, (w, Raise (Exn (Other "ImportError") "no module named logger"));
  Gui.log_entry_call := λ _ w, (w, Raise Demo.PermissionError)
|}.
End Samples.

(** *** The entry point *)

Module Entry.
Import Effects Compat.

(** Events of [main] that do not handle a path: neither a classification,
    nor a Driver call, nor any line of the legacy loop. *)
Definition pathless (ev : event) : bool :=
  match ev with
  | EvClassify _ | EvDriver _ _ => false
  | EvPrint (PUsage | PVersion | PError _) => true
  | EvPrint _ => false
  | _ => true
  end.

(** The first argument sends [main] to the legacy loop. *)
Definition legacy (first : string) : bool :=
  negb (among (lower first) ["-h"; "--help"; "help"])
  && negb (among (lower first) ["-v"; "--version"; "version"])
  && negb (among (lower first) ["check"; "unlock"; "scan"; "batch-unlock"]).

(** An installation whose classifier raises on [locked.doc]. *)
Definition raising_env : Env unit := {|
  path_exists := λ _ _, true;
  check_file_encryption_with_feedback := Demo.classify;
  open_and_process_file := Demo.driver;
  get_config_manager := λ w, (w, Ok tt);
  get_logger := λ w, (w, Ok tt);
  get_settings := λ w, (w, Ok Demo.settings);
  run_cli := λ w, (w, Ok tt);
  run_gui := λ w, (w, Ok tt)
|}.

End Entry.

(** *** Release metadata *)

Module Releases.
Import Effects Update.

(** The dialogs a trace schedules, in order. *)
Definition dialogs (t : list event) : list dialog :=
  omap (λ ev, match ev with EvAfter d => Some d | _ => None end) t.

(** A network that answers every request with [r]; the operation log
    cannot be imported. *)
Definition serving (r : response) : Env unit := {|
  REQUESTS_AVAILABLE := true;
  requests_get := λ _ _ w, (w, Ok r);
  get_logger_manager := λ w,
    (w, Raise (Exn (Other "ImportError") "no module named logger"));
  log_operation := λ _ _ _ _ w, (w, Ok tt)
|}.

Definition release (tag : value) (body : option value) : response := {|
  http_status := 200;
  json := Ok (match body with
              | Some b => <[ "body" := b ]> {[ "tag_name" := tag ]}
              | None => {[ "tag_name" := tag ]}
              end)
|}.

End Releases.

(** ** The encryption check of the panel: [check_encryption] *)

Module Check.
Import Effects Gui.
Local Open Scope eff_scope.

(** Beside the worker's collaborators, the check asks [os.path.isdir]
    and the detector's [scan_directory]. *)
Record Env (W : Type) := {
  base : Gui.Env W;
  isdir : string → W → bool;
  scan_directory : string → W → W * result (list DetectionResult)
}.
Arguments base {W}.
Arguments isdir {W}.
Arguments scan_directory {W}.

Definition NameError : exn :=
  Exn (Other "NameError") "name 'logger_manager' is not defined".

Definition status_map : gmap string string :=
  {[ "未加密" := "info"; "已加密" := "warning"; "未识别" := "warning";
     "文件不存在" := "error" ]}.

Section Panel.
Context {W : Type} (env : Env W).

Abbreviation M := (Effects.M W event).

Definition add_result (message tag : string) : M unit :=
  emit (EvAddResult message tag).

Definition display_check_result (result : DetectionResult) : M unit :=
  let tag := default "debug" (status_map !! status result) in
  let message := status result +:+ ": " +:+ file_path result in
  add_result message tag.

(** [except Exception as e: self.logger.warning(...)]. *)
Definition warn (e : exn) : M unit :=
  emit (EvWarning ("记录操作日志失败: " +:+ str e)).

(** The first logging block.  It binds [logger_manager] when the import
    and [get_logger_manager()] go through, whether or not the write that
    follows raises; the result says whether the name is bound. *)
Definition start_log (path : string) : M bool :=
  bound <- try_except (call (get_logger_manager (base env));; ret true)
                      (λ e, warn e;; ret false);;
  (if bound : bool then
     try_except (log (base env) (Operation "加密检测开始" path "进行中" None))
                warn
   else ret tt);;
  ret bound.

(** A later read of the name [logger_manager]. *)
Definition logger_manager (bound : bool) : M unit :=
  if bound then ret tt else raise NameError.

Definition check_encryption (path : string) : M unit :=
  if String.eqb path "" then
    emit (EvShowWarning "警告" "请先选择文件或目录！")
  else
    emit EvClearResults;;
    add_result ("正在检查: " +:+ path) "debug";;
    bound <- start_log path;;
    d <- ask (isdir env path);;
    if d : bool then
      results <- call (scan_directory env path);;
      let encrypted_count :=
        length (List.filter (λ r, status_code r =? 1) results) in
      let total_count := length results in
      try_except
        (logger_manager bound;;
         log (base env)
           (Operation "目录加密检测" path "完成"
              (Some ("总计" +:+ pretty total_count +:+ "个文件，加密" +:+
                     pretty encrypted_count +:+ "个"))))
        warn;;
      for_each results display_check_result
    else
      emit (EvClassify path);;
      result <- call (get_detection_result (base env) path);;
      try_except
        (file_size <- file_size_of (base env) path;;
         logger_manager bound;;
         log (base env)
           (FileOperation "文件加密检测" path (status result)
              file_size (file_type result)))
        warn;;
      display_check_result result.
End Panel.

(** The lines a trace adds to the result panel, in order. *)
Definition panel (t : list event) : list report :=
  omap (λ ev, match ev with
              | EvAddResult message tag => Some (Build_report message tag)
              | _ => None
              end) t.

(** The line [display_check_result] shows for a result. *)
Definition line_of (r : DetectionResult) : report :=
  {| message := status r +:+ ": " +:+ file_path r;
     tag := default "debug" (status_map !! status r) |}.

End Check.

Module Scans.
Import Effects.

(** A detector whose directory scan yields three results, over the
    classifier and the log of [Demo.gui_env]; scanning [vault] is
    refused. *)
Definition scanned : list DetectionResult :=
  [Demo.detect "plain.txt"; Demo.detect "secret.doc"; Demo.detect "notes.bin"].

Definition check_env : Check.Env unit := {|
  Check.base := Demo.gui_env;
  Check.isdir := λ path _, String.eqb path "docs" || String.eqb path "vault";
  Check.scan_directory := λ path w,
    (w, if String.eqb path "vault" then Raise Demo.PermissionError
        else Ok scanned)
|}.

End Scans.

(** * Results *)

(** ** Version comparison *)

Section VersionFacts.
Import Version.

Lemma first_unequal_cons a b l :
  first_unequal ((a, b) :: l) =
  if a >? b then 1 else if a <? b then -1 else first_unequal l.
Proof.
  unfold first_unequal, decide_pair; simpl.
  destruct (Z.eqb_spec a b) as [->|Hne]; simpl.
  - rewrite Z.gtb_ltb, !Z.ltb_irrefl. reflexivity.
  - rewrite Z.gtb_ltb.
    destruct (Z.ltb_spec b a), (Z.ltb_spec a b); try reflexivity; lia.
Qed.

(** The indexed loop never leaves the padded lists, and computes the
    first unequal pair of what is left of them. *)
Lemma compare_loop_drop (xs ys : list Z) n : ∀ i,
  length xs = (i + n)%nat → length ys = (i + n)%nat →
  compare_loop xs ys i n = Some (first_unequal (zip (drop i xs) (drop i ys))).
Proof.
  induction n as [|n IH]; intros i Hx Hy.
  - simpl. rewrite !drop_ge by lia. reflexivity.
  - simpl.
    destruct (lookup_lt_is_Some_2 xs i) as [a Ha]; [lia|].
    destruct (lookup_lt_is_Some_2 ys i) as [b Hb]; [lia|].
    rewrite Ha, Hb.
    rewrite (drop_S xs a i Ha), (drop_S ys b i Hb).
    simpl. rewrite first_unequal_cons.
    rewrite IH by lia. repeat case_match; reflexivity.
Qed.

Lemma pad_length n (l : list Z) : (length l ≤ n)%nat → length (pad n l) = n.
Proof. intros H. unfold pad. rewrite length_app, length_replicate. lia. Qed.

Lemma compare_loop_swap (xs ys : list Z) n : ∀ i,
  compare_loop xs ys i n = Z.opp <$> compare_loop ys xs i n.
Proof.
  induction n as [|n IH]; intros i; simpl; [reflexivity|].
  destruct (xs !! i) as [a|], (ys !! i) as [b|]; try reflexivity.
  rewrite !Z.gtb_ltb.
  destruct (Z.ltb_spec b a), (Z.ltb_spec a b); try reflexivity; try lia.
  apply IH.
Qed.

Lemma compare_body_swap a b :
  compare_body a b = Z.opp <$> compare_body b a.
Proof.
  unfold compare_body.
  destruct (parts a) as [xs|], (parts b) as [ys|]; simpl; try reflexivity.
  rewrite (Nat.max_comm (length ys) (length xs)).
  apply compare_loop_swap.
Qed.
End VersionFacts.

(** C4.  [_compare_versions] is the comparison of the specification:
    split on the dot, read each component as an integer, pad the shorter
    list with zeros on the right, let the first unequal pair decide (1 when
    the left one is larger, -1 when smaller, 0 when none differs), and 0
    whenever a component of either string does not parse; with the four
    sample values. *)
Theorem compare_versions_is_reference :
  (∀ a b : string, Version._compare_versions a b = Version.reference_compare a b)
  ∧ (∀ a b : string,
       match Version.parts a, Version.parts b with
       | Some _, Some _ => True
       | _, _ => Version._compare_versions a b = 0
       end)
  ∧ Version._compare_versions "5.2" "5.1" = 1
  ∧ Version._compare_versions "5.1" "5.1.0" = 0
  ∧ Version._compare_versions "5.1" "5.2" = -1
  ∧ Version._compare_versions "abc" "1.0" = 0.
Proof.
  split; [|split; [|repeat split; reflexivity]].
  - intros a b.
    unfold Version._compare_versions, Version.reference_compare,
      Version.compare_body, Version.parts.
    destruct (mapM Version.py_int (Version.split "." a)) as [xs|]; simpl;
      [|reflexivity].
    destruct (mapM Version.py_int (Version.split "." b)) as [ys|]; simpl;
      [|reflexivity].
    fold (Version.pad (length xs `max` length ys) xs).
    fold (Version.pad (length xs `max` length ys) ys).
    rewrite (compare_loop_drop _ _ _ 0%nat);
      [| rewrite pad_length; lia | rewrite pad_length; lia].
    reflexivity.
  - intros a b. unfold Version._compare_versions, Version.compare_body.
    destruct (Version.parts a), (Version.parts b); simpl; auto.
Qed.

(** C9.  Swapping the arguments of [_compare_versions] negates the result,
    for all strings, parseable or not; hence a version compares equal to
    itself. *)
Theorem compare_versions_antisymmetric :
  (∀ a b : string,
     Version._compare_versions a b = - Version._compare_versions b a)
  ∧ (∀ v : string, Version._compare_versions v v = 0).
Proof.
  assert (H : ∀ a b : string,
             Version._compare_versions a b = - Version._compare_versions b a).
  { intros a b. unfold Version._compare_versions.
    rewrite (compare_body_swap a b).
    destruct (Version.compare_body b a); reflexivity. }
  split; [exact H|].
  intros v. specialize (H v v). lia.
Qed.

(** ** The decrypt worker *)

Section WorkerFacts.
Import Effects Gui.
Context {W : Type} (env : Env W).

Lemma quiet_signals t : quiet t → signals t = [].
Proof.
  induction 1 as [|ev t Hev _ IH]; [reflexivity|].
  unfold signals in *. simpl. rewrite Hev. exact IH.
Qed.

Lemma signals_app t1 t2 : signals (t1 ++ t2) = signals t1 ++ signals t2.
Proof. apply List.filter_app. Qed.

Lemma quiet_existsb (f : event → bool) t :
  (∀ ev, f ev = true → is_logging ev = false) →
  quiet t → existsb f t = false.
Proof.
  intros Hf. induction 1 as [|ev t Hev _ IH]; [reflexivity|].
  simpl. rewrite IH, orb_false_r.
  destruct (f ev) eqn:E; [|reflexivity].
  apply Hf in E. congruence.
Qed.

Lemma quiet_not_in ev t : quiet t → is_logging ev = false → ev ∉ t.
Proof.
  intros Hq Hev Hin. unfold quiet in Hq. rewrite Forall_forall in Hq.
  specialize (Hq ev Hin). congruence.
Qed.

Lemma quiet_rendered exc t : quiet t → rendered exc t = [].
Proof.
  induction 1 as [|ev t Hev _ IH]; [reflexivity|].
  unfold rendered in *. destruct ev; try discriminate; simpl; exact IH.
Qed.

(** What is written to the operation log leaves only logging events. *)
Lemma log_quiet entry w : quiet (trace_of (log env entry w)).
Proof.
  unfold log, bind, emit, call, trace_of, quiet. simpl.
  destruct (log_entry_call env entry w) as [w1 [[]|e]]; simpl;
    repeat constructor.
Qed.

Lemma bind_quiet {A B} (m : Effects.M W event A)
    (k : A → Effects.M W event B) w :
  (∀ w', quiet (trace_of (m w'))) →
  (∀ a w', quiet (trace_of (k a w'))) →
  quiet (trace_of (bind m k w)).
Proof.
  intros Hm Hk. unfold bind, trace_of in *. specialize (Hm w).
  destruct (m w) as [[w1 t1] [a|e]]; simpl in *; [|exact Hm].
  specialize (Hk a w1). destruct (k a w1) as [[w2 t2] r]; simpl in *.
  apply Forall_app. split; assumption.
Qed.

Lemma file_size_of_quiet path w : quiet (trace_of (file_size_of env path w)).
Proof.
  unfold file_size_of, try_except, bind, call, ret, trace_of, quiet.
  destruct (getsize env path w) as [w1 [n|e]]; simpl; constructor.
Qed.

(** A guarded logging block returns normally and stays quiet. *)
Lemma guarded_log_spec (body : Effects.M W event unit) w :
  (∀ w', quiet (trace_of (body w'))) →
  ∃ w1 t, guarded_log env body w = (w1, t, Ok tt) ∧ quiet t.
Proof.
  intros Hb. unfold guarded_log, try_except, bind, call, emit.
  destruct (get_logger_manager env w) as [w1 [[]|e]]; simpl.
  - specialize (Hb w1). unfold trace_of in Hb.
    destruct (body w1) as [[w2 t] [[]|e]]; simpl in *.
    + eauto.
    + eexists _, _. split; [reflexivity|].
      apply Forall_app. split; [exact Hb|]. repeat constructor.
  - eexists _, _. split; [reflexivity|]. repeat constructor.
Qed.

Ltac quiet_body :=
  intros;
  first [ apply log_quiet
        | apply file_size_of_quiet
        | apply bind_quiet; quiet_body ].

Ltac logs :=
  match goal with
  | |- context [guarded_log env ?b ?w] =>
      let Hq := fresh "Hq" in
      destruct (guarded_log_spec b w ltac:(quiet_body)) as (? & ? & -> & Hq)
  end.

Ltac run_worker :=
  unfold process_decrypt_task, decrypt_task_body, decrypt_task_handler,
    verify, try_except, bind, call, emit, ret, trace_of, outcome_of in *;
  simpl in *.

(** One step of symbolic execution: the next collaborator call or test
    whose arguments are known. *)
Ltac step :=
  match goal with
  | H : ?x = _ |- context [?x] => rewrite H
  | |- context [get_detection_result env ?p ?w] =>
      destruct (get_detection_result env p w) as [? [?|?]] eqn:?
  | |- context [get_settings env ?w] =>
      destruct (get_settings env w) as [? [?|?]] eqn:?
  | |- context [process_encrypted_file env ?p ?g ?w] =>
      destruct (process_encrypted_file env p g w) as [? [?|?]] eqn:?
  | |- context [truthy ?d] => destruct (truthy d) eqn:?
  | |- context [Z.eqb ?a ?b] => destruct (Z.eqb_spec a b)
  | _ => logs
  end; simpl in *.

(** The worker returns normally whatever its collaborators do. *)
Lemma worker_never_raises path w :
  outcome_of (process_decrypt_task env path w) = Ok tt.
Proof. run_worker. repeat step; reflexivity. Qed.

(** The skip branch, in full. *)
Lemma worker_skip path w w1 r :
  get_detection_result env path w = (w1, Ok r) →
  status_code r ≠ 1 →
  ∃ w' logs,
    process_decrypt_task env path w =
      (w', EvClassify path :: EvAfter (CbSkip path r) :: logs, Ok tt)
    ∧ quiet logs.
Proof.
  intros Hd Hs. run_worker. rewrite Hd. simpl.
  destruct (Z.eqb_spec (status_code r) 1); [done|]. simpl.
  logs. simpl. eauto.
Qed.

(** The branch that reaches verification, in full. *)
Lemma worker_verified path w w1 r w2 settings w3 d dpath w4 v :
  get_detection_result env path w = (w1, Ok r) →
  status_code r = 1 →
  get_settings env w1 = (w2, Ok settings) →
  process_encrypted_file env path (settings !! "wps_path") w2 = (w3, Ok d) →
  truthy d = Some dpath →
  get_detection_result env dpath w3 = (w4, Ok v) →
  ∃ w' logs,
    process_decrypt_task env path w =
      (w',
       EvClassify path :: EvDriver path (settings !! "wps_path")
       :: EvAfter (CbDecrypted path dpath) :: EvClassify dpath
       :: EvAfter (if status_code v =? 0 then CbVerified
                   else CbVerifyWarning)
       :: logs,
       Ok tt)
    ∧ quiet logs.
Proof.
  intros Hd Hs Hg Hp Ht Hv. run_worker. rewrite Hd. simpl.
  rewrite Hs. simpl. rewrite Hg. simpl. rewrite Hp. simpl.
  rewrite Ht. simpl. rewrite Hv. simpl.
  destruct (status_code v =? 0); simpl; logs; simpl; eauto.
Qed.

(** Whatever the body raises is caught: the handler binds [e],
    schedules the error closure, logs, and unbinds [e]. *)
Lemma worker_handles path w w1 t e :
  decrypt_task_body env path w = (w1, t, Raise e) →
  ∃ w' logs,
    process_decrypt_task env path w =
      (w',
       t ++ EvBindExc e :: EvAfter (CbError path) :: logs ++ [EvDelExc],
       Ok tt)
    ∧ quiet logs.
Proof.
  intros Hb. unfold process_decrypt_task, try_except. rewrite Hb.
  unfold decrypt_task_handler, bind, emit. simpl.
  logs. simpl. eauto.
Qed.

Lemma worker_driver_only_when_encrypted path w p prog :
  EvDriver p prog ∈ trace_of (process_decrypt_task env path w) →
  p = path ∧
  ∃ w1 r, get_detection_result env path w = (w1, Ok r) ∧ status_code r = 1.
Proof.
  run_worker. 
  destruct (get_detection_result env path w) as [w1 [r|e]] eqn:Hd; simpl.
  - destruct (Z.eqb_spec (status_code r) 1) as [Hs|Hs]; simpl.
    + intros H. split; [|eauto]. revert H.
      repeat step; intros H;
        repeat (apply elem_of_cons in H as [H|H]; [by simplify_eq|]);
        try (apply elem_of_app in H as [H|H]);
        repeat (apply elem_of_cons in H as [H|H]; [by simplify_eq|]);
        try (by apply elem_of_nil in H);
        by eapply quiet_not_in in H.
    + logs. simpl. intros H.
      repeat (apply elem_of_cons in H as [H|H]; [by simplify_eq|]).
      by eapply quiet_not_in in H.
  - logs. simpl. intros H.
    repeat (apply elem_of_cons in H as [H|H]; [by simplify_eq|]).
    apply elem_of_app in H as [H|H]; [by eapply quiet_not_in in H|].
    repeat (apply elem_of_cons in H as [H|H]; [by simplify_eq|]).
    by apply elem_of_nil in H.
Qed.

Lemma exc_after_unbound t : exc_after (t ++ [EvDelExc]) = None.
Proof. unfold exc_after. rewrite fold_left_app. reflexivity. Qed.

Lemma verify_state_quiet prefix logs :
  quiet logs →
  verify_state_of (prefix ++ logs) = verify_state_of prefix.
Proof.
  intros Hq. unfold verify_state_of. rewrite !existsb_app.
  rewrite !(quiet_existsb _ logs), !orb_false_r; try done.
  - by intros [] H; try discriminate.
  - by intros [] H; try discriminate.
Qed.

Lemma rendered_app exc t1 t2 :
  rendered exc (t1 ++ t2) = rendered exc t1 ++ rendered exc t2.
Proof. unfold rendered. apply omap_app. Qed.
End WorkerFacts.

(** ** The legacy command line *)

Section CompatFacts.
Import Effects Compat.
Context {W : Type} (env : Env W).

Ltac run_path :=
  unfold process_path, print, try_except, bind, call, ask, emit, ret,
    trace_of, outcome_of in *;
  simpl in *.

Ltac cstep :=
  match goal with
  | H : ?x = _ |- context [?x] => rewrite H
  | |- context [path_exists env ?p ?w] =>
      destruct (path_exists env p w) eqn:?
  | |- context [check_file_encryption_with_feedback env ?p ?w] =>
      destruct (check_file_encryption_with_feedback env p w)
        as [? [?|?]] eqn:?
  | |- context [get_settings env ?w] =>
      destruct (get_settings env w) as [? [?|?]] eqn:?
  | |- context [open_and_process_file env ?p ?g ?w] =>
      destruct (open_and_process_file env p g w) as [? [?|?]] eqn:?
  | |- context [truthy ?d] => destruct (truthy d) eqn:?
  | |- context [Z.eqb ?a ?b] => destruct (Z.eqb_spec a b)
  end; simpl in *.

Ltac in_list H :=
  repeat (apply elem_of_cons in H as [H|H]; [by simplify_eq|]);
  try (by apply elem_of_nil in H).

Lemma path_driver_only_when_encrypted path w p prog :
  EvDriver p prog ∈ trace_of (process_path env path w) →
  p = path ∧
  ∃ w1 r, check_file_encryption_with_feedback env path w = (w1, Ok r)
          ∧ status_code r = 1.
Proof.
  run_path.
  destruct (path_exists env path w); simpl; [|intros H; in_list H].
  destruct (check_file_encryption_with_feedback env path w)
    as [w1 [r|e]] eqn:Hd; simpl; [|intros H; in_list H].
  destruct (Z.eqb_spec (status_code r) 1) as [Hs|Hs]; simpl.
  - intros H. split; [|eauto]. revert H.
    repeat cstep; intros H; in_list H.
  - repeat cstep; intros H; in_list H.
Qed.

(** The verification step of the legacy mode, in full. *)
Lemma path_verified path w w1 r w2 settings w3 d dpath w4 v :
  path_exists env path w = true →
  check_file_encryption_with_feedback env path w = (w1, Ok r) →
  status_code r = 1 →
  get_settings env w1 = (w2, Ok settings) →
  open_and_process_file env path (settings !! "wps_path") w2 = (w3, Ok d) →
  truthy d = Some dpath →
  check_file_encryption_with_feedback env dpath w3 = (w4, Ok v) →
  outcomes (trace_of (process_path env path w)) =
    [if status_code v =? 0 then DecryptedVerified else DecryptedUnverified].
Proof.
  intros He Hd Hs Hg Hp Ht Hv. run_path.
  rewrite He. simpl. rewrite Hd. simpl. rewrite Hs. simpl.
  rewrite Hg. simpl. rewrite Hp. simpl. rewrite Ht. simpl.
  rewrite Hv. simpl. destruct (status_code v =? 0); reflexivity.
Qed.

(** With collaborators that return, a path gets one outcome. *)
Lemma path_one_outcome path w :
  well_behaved env →
  ∃ w1 t c, process_path env path w = (w1, t, Ok tt) ∧ outcomes t = [c].
Proof.
  intros [Hc Hd Hs _ _]. run_path.
  destruct (path_exists env path w); simpl; [|eauto].
  destruct (Hc path w) as (w1 & r & ->). simpl.
  destruct (Z.eqb_spec (status_code r) 1); simpl.
  - destruct (Hs w1) as (w2 & st & ->). simpl.
    destruct (Hd path (st !! "wps_path") w2) as (w3 & d & ->). simpl.
    destruct (truthy d) as [dpath|]; simpl; [|eauto].
    destruct (Hc dpath w3) as (w4 & v & ->). simpl.
    destruct (status_code v =? 0); simpl; eauto.
  - destruct (status_code r =? 0); simpl; eauto.
Qed.

Lemma outcomes_app t1 t2 : outcomes (t1 ++ t2) = outcomes t1 ++ outcomes t2.
Proof. apply omap_app. Qed.

(** The loop over the paths: one outcome per path, in order, each the
    outcome of handling that path in the world of its turn. *)
Lemma loop_outcomes paths : ∀ w,
  well_behaved env →
  ∃ w1 t,
    for_each paths (process_path env) w = (w1, t, Ok tt)
    ∧ Forall2 (λ path c, ∃ w',
                 outcomes (trace_of (process_path env path w')) = [c])
              paths (outcomes t).
Proof.
  induction paths as [|path paths IH]; intros w Hwb; simpl.
  - eexists _, _. split; [reflexivity|]. constructor.
  - unfold bind.
    destruct (path_one_outcome path w Hwb) as (w1 & t & c & Hrun & Hc).
    rewrite Hrun.
    destruct (IH w1 Hwb) as (w2 & t2 & -> & Hall).
    eexists _, _. split; [reflexivity|].
    rewrite outcomes_app, Hc. simpl. constructor; [|exact Hall].
    exists w. unfold trace_of. rewrite Hrun. exact Hc.
Qed.
End CompatFacts.

(** ** Claims about the worker and the legacy mode *)

(** C2.  A file whose classification is not Encrypted (status code other
    than 1) is skipped: the worker returns after scheduling the skip report
    (tag info, nothing to verify: NotApplicable) and the Driver is not
    called; conversely, the Driver is called only on the task's own path and
    only after a classification with status code 1.  The same holds for the
    loop of the legacy command line. *)
Theorem skip_never_invokes_driver {W : Type}
    (env : Gui.Env W) (cenv : Compat.Env W) (path : string) (w : W) :
  (∀ w1 r,
     Gui.get_detection_result env path w = (w1, Effects.Ok r) →
     Effects.status_code r ≠ 1 →
     let run := Gui.process_decrypt_task env path w in
     Effects.outcome_of run = Effects.Ok tt
     ∧ Gui.signals (Effects.trace_of run) =
         [Gui.EvClassify path; Gui.EvAfter (Gui.CbSkip path r)]
     ∧ Gui.verify_state_of (Effects.trace_of run) = Gui.NotApplicable
     ∧ (∀ exc, Gui.rendered exc (Effects.trace_of run) =
          [{| Gui.message := "跳过非加密文件: " +:+ path +:+ " (" +:+
                             Effects.status r +:+ ")";
              Gui.tag := "info" |}])
     ∧ ∀ p prog, Gui.EvDriver p prog ∉ Effects.trace_of run)
  ∧ (∀ p prog,
       Gui.EvDriver p prog ∈
         Effects.trace_of (Gui.process_decrypt_task env path w) →
       p = path ∧
       ∃ w1 r, Gui.get_detection_result env path w = (w1, Effects.Ok r)
               ∧ Effects.status_code r = 1)
  ∧ (∀ p prog,
       Compat.EvDriver p prog ∈
         Effects.trace_of (Compat.process_path cenv path w) →
       p = path ∧
       ∃ w1 r,
         Compat.check_file_encryption_with_feedback cenv path w =
           (w1, Effects.Ok r)
         ∧ Effects.status_code r = 1).
Proof.
  split; [|split].
  - intros w1 r Hd Hs run.
    destruct (worker_skip env path w w1 r Hd Hs) as (w' & logs & Hrun & Hq).
    subst run. rewrite Hrun. unfold Effects.outcome_of, Effects.trace_of.
    cbn [fst snd]. split; [reflexivity|]. split; [|split; [|split]].
    + simpl. rewrite (quiet_signals logs Hq). reflexivity.
    + change (Gui.EvClassify path :: Gui.EvAfter (Gui.CbSkip path r) :: logs)
        with ([Gui.EvClassify path; Gui.EvAfter (Gui.CbSkip path r)] ++ logs).
      rewrite (verify_state_quiet _ _ Hq). reflexivity.
    + intros exc.
      change (Gui.EvClassify path :: Gui.EvAfter (Gui.CbSkip path r) :: logs)
        with ([Gui.EvClassify path; Gui.EvAfter (Gui.CbSkip path r)] ++ logs).
      rewrite rendered_app, (quiet_rendered exc logs Hq). reflexivity.
    + intros p prog H.
      repeat (apply elem_of_cons in H as [H|H]; [discriminate|]).
      by eapply quiet_not_in in H.
  - apply worker_driver_only_when_encrypted.
  - apply path_driver_only_when_encrypted.
Qed.

Lemma skip_never_invokes_driver_witness :
  Gui.signals (Effects.trace_of
                 (Gui.process_decrypt_task Demo.gui_env "plain.txt" tt)) =
    [Gui.EvClassify "plain.txt";
     Gui.EvAfter (Gui.CbSkip "plain.txt"
                    (Effects.Build_DetectionResult "plain.txt" "未加密" 0 None))]
  ∧ Effects.status_code
      (Effects.Build_DetectionResult "secret.doc" "已加密" 1 (Some "doc")) = 1.
Proof.
  destruct (skip_never_invokes_driver Demo.gui_env Demo.compat_env
              "plain.txt" tt) as [Hskip _].
  destruct (skip_never_invokes_driver Demo.gui_env Demo.compat_env
              "secret.doc" tt) as (_ & Hgui & Hcompat).
  split.
  - refine (proj1 (proj2 (Hskip tt _ eq_refl _))). simpl. lia.
  - destruct (Hgui "secret.doc" (Some (Effects.VStr "/opt/wps/wps")))
      as (_ & w1 & r & Hr & Hs).
    + vm_compute. apply elem_of_cons. right. apply elem_of_cons. by left.
    + vm_compute in Hr. injection Hr as _ <-. exact Hs.
Defined.

(** C3.  Once the Driver has produced a decrypted path and that path has
    been classified again, verification reports success exactly when the
    new status code is 0; any other code, Unrecognized included, gives the
    warning and no success report.  In the worker and in the legacy loop. *)
Theorem verification_passes_iff_unencrypted {W : Type}
    (env : Gui.Env W) (cenv : Compat.Env W) (path : string) (w : W)
    (w1 : W) (r : Effects.DetectionResult) (w2 : W)
    (settings : gmap string Effects.value) (w3 : W) (d : option string)
    (dpath : string) (w4 : W) (v : Effects.DetectionResult) :
  (Gui.get_detection_result env path w = (w1, Effects.Ok r) →
   Effects.status_code r = 1 →
   Gui.get_settings env w1 = (w2, Effects.Ok settings) →
   Gui.process_encrypted_file env path (settings !! "wps_path") w2 =
     (w3, Effects.Ok d) →
   Gui.truthy d = Some dpath →
   Gui.get_detection_result env dpath w3 = (w4, Effects.Ok v) →
   let t := Effects.trace_of (Gui.process_decrypt_task env path w) in
   (Gui.verify_state_of t = Gui.Passed ↔ Effects.status_code v = 0)
   ∧ (Gui.verify_state_of t = Gui.Failed ↔ Effects.status_code v ≠ 0)
   ∧ ∀ exc, Gui.rendered exc t =
       [{| Gui.message := "解密成功: " +:+ path +:+ " -> " +:+ dpath;
           Gui.tag := "success" |};
        if Effects.status_code v =? 0
        then {| Gui.message := "复核成功: 文件未加密"; Gui.tag := "success" |}
        else {| Gui.message := "复核警告: 文件可能仍为加密状态";
                Gui.tag := "warning" |}])
  ∧ (Compat.path_exists cenv path w = true →
     Compat.check_file_encryption_with_feedback cenv path w =
       (w1, Effects.Ok r) →
     Effects.status_code r = 1 →
     Compat.get_settings cenv w1 = (w2, Effects.Ok settings) →
     Compat.open_and_process_file cenv path (settings !! "wps_path") w2 =
       (w3, Effects.Ok d) →
     Compat.truthy d = Some dpath →
     Compat.check_file_encryption_with_feedback cenv dpath w3 =
       (w4, Effects.Ok v) →
     let t := Effects.trace_of (Compat.process_path cenv path w) in
     (Compat.outcomes t = [Compat.DecryptedVerified]
      ↔ Effects.status_code v = 0)
     ∧ (Compat.outcomes t = [Compat.DecryptedUnverified]
        ↔ Effects.status_code v ≠ 0)).
Proof.
  split.
  - intros Hd Hs Hg Hp Ht Hv t.
    destruct (worker_verified env path w w1 r w2 settings w3 d dpath w4 v
                Hd Hs Hg Hp Ht Hv) as (w' & logs & Hrun & Hq).
    subst t. rewrite Hrun. unfold Effects.trace_of. cbn [fst snd].
    match goal with
    | |- context [?a :: ?b :: ?c :: ?e :: ?f :: logs] =>
        change (a :: b :: c :: e :: f :: logs)
          with ([a; b; c; e; f] ++ logs)
    end.
    rewrite (verify_state_quiet _ _ Hq).
    split; [|split].
    + destruct (Z.eqb_spec (Effects.status_code v) 0); unfold Gui.verify_state_of; simpl;
        split; intros; congruence.
    + destruct (Z.eqb_spec (Effects.status_code v) 0); unfold Gui.verify_state_of; simpl;
        split; intros; congruence.
    + intros exc. rewrite rendered_app, (quiet_rendered exc logs Hq).
      destruct (Effects.status_code v =? 0); reflexivity.
  - intros He Hd Hs Hg Hp Ht Hv t. subst t.
    rewrite (path_verified cenv path w w1 r w2 settings w3 d dpath w4 v
               He Hd Hs Hg Hp Ht Hv).
    destruct (Z.eqb_spec (Effects.status_code v) 0);
      split; split; intros; congruence.
Qed.

Lemma verification_passes_iff_unencrypted_witness :
  Gui.verify_state_of
    (Effects.trace_of (Gui.process_decrypt_task Demo.gui_env "secret.doc" tt))
    = Gui.Passed
  ∧ Compat.outcomes
      (Effects.trace_of (Compat.process_path Demo.compat_env "secret.doc" tt))
    = [Compat.DecryptedVerified].
Proof.
  destruct (verification_passes_iff_unencrypted
              Demo.gui_env Demo.compat_env "secret.doc" tt
              tt (Effects.Build_DetectionResult "secret.doc" "已加密" 1 (Some "doc"))
              tt Demo.settings tt (Some "secret.dec.doc") "secret.dec.doc"
              tt (Effects.Build_DetectionResult "secret.dec.doc" "未加密" 0
                    (Some "doc"))) as [Hgui Hcompat].
  split.
  - apply (Hgui eq_refl eq_refl eq_refl eq_refl eq_refl eq_refl). reflexivity.
  - apply (Hcompat eq_refl eq_refl eq_refl eq_refl eq_refl eq_refl eq_refl).
    reflexivity.
Defined.

(** Whatever the body of the worker raises, the worker itself returns
    normally, has scheduled the error closure, and has unbound [e] by the
    time it returns: run from then on, the closure raises [NameError] and
    the panel gets no error report; run while the handler is still active,
    it gives the report. *)
Lemma worker_error_report {W : Type} (env : Gui.Env W) (path : string)
    (w w1 : W) (t : list Gui.event) (e : Effects.exn) :
  Gui.decrypt_task_body env path w = (w1, t, Effects.Raise e) →
  let run := Gui.process_decrypt_task env path w in
  Effects.outcome_of run = Effects.Ok tt
  ∧ Gui.exc_after (Effects.trace_of run) = None
  ∧ Gui.rendered None (Effects.trace_of run) = Gui.rendered None t
  ∧ Gui.rendered (Some e) (Effects.trace_of run) =
      Gui.rendered (Some e) t ++
      [{| Gui.message := "处理文件时出错: " +:+ path +:+ " - " +:+ Effects.str e;
          Gui.tag := "error" |}].
Proof.
  intros Hb run.
  destruct (worker_handles env path w w1 t e Hb) as (w' & logs & Hrun & Hq).
  subst run. rewrite Hrun. unfold Effects.outcome_of, Effects.trace_of.
  cbn [fst snd]. split; [reflexivity|].
  change (t ++ Gui.EvBindExc e :: Gui.EvAfter (Gui.CbError path)
            :: logs ++ [Gui.EvDelExc])
    with (t ++ [Gui.EvBindExc e; Gui.EvAfter (Gui.CbError path)]
            ++ logs ++ [Gui.EvDelExc]).
  split; [|split].
  - rewrite !app_assoc. apply exc_after_unbound.
  - rewrite !rendered_app, (quiet_rendered None logs Hq). simpl.
    by rewrite app_nil_r.
  - rewrite !rendered_app, (quiet_rendered (Some e) logs Hq). reflexivity.
Qed.

(** C6, at a failing input.  Classifying [locked.doc] raises.  The worker
    catches the exception and returns normally, but the error report it
    schedules is a closure over the handler's variable [e], which Python
    unbinds when the handler is left: delivered after the worker has
    returned, the closure raises and no outcome is reported for the file.
    Delivered while the handler is still running, it would be. *)
Theorem error_report_lost_after_handler :
  let run := Gui.process_decrypt_task Demo.gui_env "locked.doc" tt in
  Effects.outcome_of run = Effects.Ok tt
  ∧ Gui.signals (Effects.trace_of run) =
      [Gui.EvClassify "locked.doc"; Gui.EvBindExc Demo.PermissionError;
       Gui.EvAfter (Gui.CbError "locked.doc"); Gui.EvDelExc]
  ∧ Gui.exc_after (Effects.trace_of run) = None
  ∧ Gui.run_callback (Gui.exc_after (Effects.trace_of run))
      (Gui.CbError "locked.doc") = Effects.Raise Gui.NameError
  ∧ Gui.rendered (Gui.exc_after (Effects.trace_of run))
      (Effects.trace_of run) = []
  ∧ Gui.rendered (Some Demo.PermissionError) (Effects.trace_of run) =
      [{| Gui.message := "处理文件时出错: locked.doc - access denied";
          Gui.tag := "error" |}].
Proof. repeat split. Qed.

(** C7.  In the legacy mode (the first argument is none of the reserved
    words), with collaborators that return, a run over N paths reports N
    outcomes, one per path and in the order of the paths, each of them one
    of the six categories. *)
Theorem compat_one_report_per_path {W : Type} (env : Compat.Env W)
    (prog first : string) (rest : list string) (w : W) :
  Compat.well_behaved env →
  Compat.among (Compat.lower first) ["-h"; "--help"; "help"] = false →
  Compat.among (Compat.lower first) ["-v"; "--version"; "version"] = false →
  Compat.among (Compat.lower first)
    ["check"; "unlock"; "scan"; "batch-unlock"] = false →
  let run := Compat.main env (prog :: first :: rest) w in
  let reports := Compat.outcomes (Effects.trace_of run) in
  Effects.outcome_of run = Effects.Ok tt
  ∧ length reports = length (first :: rest)
  ∧ Forall2 (λ path c, ∃ w',
               Compat.outcomes
                 (Effects.trace_of (Compat.process_path env path w')) = [c])
            (first :: rest) reports
  ∧ Forall (λ c, c ∈ [Compat.NotFound; Compat.UnencryptedSkipped;
                      Compat.UnrecognizedSkipped; Compat.DecryptedVerified;
                      Compat.DecryptedUnverified; Compat.DecryptionFailed])
           reports.
Proof.
  intros Hwb Hh Hv Hc run reports.
  assert (Hrun : ∃ w1 t,
             run = (w1, t, Effects.Ok tt)
             ∧ Forall2 (λ path c, ∃ w',
                  Compat.outcomes
                    (Effects.trace_of (Compat.process_path env path w')) = [c])
                 (first :: rest) (Compat.outcomes t)).
  { subst run. unfold Compat.main.
    remember (first :: rest) as paths eqn:Hp.
    destruct (Compat.config_manager_returns env Hwb w) as (w1 & [] & Hcm).
    destruct (Compat.logger_returns env Hwb w1) as (w2 & [] & Hlg).
    unfold Effects.try_except, Effects.try_finally, Effects.bind,
      Effects.call, Effects.ret, Effects.emit.
    rewrite Hcm. simpl. rewrite Hlg. simpl.
    unfold Compat.dispatch. subst paths.
    rewrite Hh, Hv, Hc.
    unfold Effects.bind, Effects.emit.
    destruct (loop_outcomes env (first :: rest) w2 Hwb)
      as (w3 & t & Hloop & Hall).
    rewrite Hloop. simpl.
    eexists _, _. split; [reflexivity|].
    simpl. rewrite outcomes_app. simpl. rewrite app_nil_r. exact Hall. }
  destruct Hrun as (w1 & t & Hrun & Hall).
  subst reports. rewrite Hrun.
  unfold Effects.outcome_of, Effects.trace_of. cbn [fst snd].
  split; [reflexivity|]. split; [|split].
  - symmetry. exact (Forall2_length _ _ _ Hall).
  - exact Hall.
  - apply Forall_forall. intros c _.
    destruct c; rewrite !elem_of_cons; naive_solver.
Qed.

Lemma compat_one_report_per_path_witness :
  length
    (Compat.outcomes
       (Effects.trace_of
          (Compat.main Demo.compat_env
             ["main.py"; "missing.doc"; "plain.txt"; "secret.doc"; "odd.bin"]
             tt)))
  = 4%nat.
Proof.
  assert (Hwb : Compat.well_behaved Demo.compat_env).
  { split; intros; intros []; simpl; unfold Demo.driver;
      try case_match; eauto. }
  pose proof (compat_one_report_per_path Demo.compat_env "main.py"
                "missing.doc" ["plain.txt"; "secret.doc"; "odd.bin"] tt
                Hwb eq_refl eq_refl eq_refl) as H.
  exact (proj1 (proj2 H)).
Defined.

(** The line that echoes the classifier's status is a different [print]
    from the not-found report, though the two read the same when the
    classifier words a status the way the not-found report is worded. *)
Remark status_echo_can_read_like_not_found (path : string) :
  Compat.render (Compat.PStatus "文件不存在" path) =
  Compat.render (Compat.PNotFound path).
Proof. reflexivity. Qed.

(** C10.  In the legacy loop the not-found report is printed exactly when
    the existence check fails, before any classification.  A path that
    passes the check and is classified with a status code other than 0 and
    1, the code -1 of Missing included, takes the last branch: it is
    reported as unrecognised and skipped, and no not-found report is
    printed for it. *)
Theorem not_found_only_from_existence_check {W : Type} (env : Compat.Env W)
    (path : string) (w : W) :
  (∀ q, Compat.EvPrint (Compat.PNotFound q) ∈
          Effects.trace_of (Compat.process_path env path w)
        ↔ Compat.path_exists env path w = false ∧ q = path)
  ∧ (Compat.path_exists env path w = false →
     Compat.process_path env path w =
       (w, [Compat.EvPrint (Compat.PNotFound path);
            Compat.EvLogError ("文件不存在: " +:+ path)], Effects.Ok tt))
  ∧ (∀ w1 r,
       Compat.path_exists env path w = true →
       Compat.check_file_encryption_with_feedback env path w =
         (w1, Effects.Ok r) →
       Effects.status_code r ≠ 0 →
       Effects.status_code r ≠ 1 →
       Compat.process_path env path w =
         (w1,
          [Compat.EvClassify path;
           Compat.EvPrint (Compat.PStatus (Effects.status r) path);
           Compat.EvLogInfo (Effects.status r +:+ ": " +:+ path);
           Compat.EvPrint Compat.PSkipUnrecognized;
           Compat.EvLogWarning ("文件未识别，跳过处理: " +:+ path)],
          Effects.Ok tt)
       ∧ Compat.outcomes (Effects.trace_of (Compat.process_path env path w))
         = [Compat.UnrecognizedSkipped]).
Proof.
  split; [|split].
  - intros q.
    unfold Compat.process_path, Compat.print, Effects.bind, Effects.call,
      Effects.ask, Effects.emit, Effects.trace_of. simpl.
    destruct (Compat.path_exists env path w) eqn:He; simpl.
    + split; [|intros [? _]; discriminate].
      destruct (Compat.check_file_encryption_with_feedback env path w)
        as [w1 [r|e]]; simpl.
      2:{ intros H.
          repeat (apply elem_of_cons in H as [H|H]; [discriminate|]).
          by apply elem_of_nil in H. }
      destruct (Effects.status_code r =? 1); simpl.
      * destruct (Compat.get_settings env w1) as [w2 [st|e]]; simpl.
        2:{ intros H.
            repeat (apply elem_of_cons in H as [H|H]; [discriminate|]).
            by apply elem_of_nil in H. }
        destruct (Compat.open_and_process_file env path (st !! "wps_path") w2)
          as [w3 [d|e]]; simpl.
        2:{ intros H.
            repeat (apply elem_of_cons in H as [H|H]; [discriminate|]).
            by apply elem_of_nil in H. }
        destruct (Compat.truthy d) as [dpath|]; simpl.
        2:{ intros H.
            repeat (apply elem_of_cons in H as [H|H]; [discriminate|]).
            by apply elem_of_nil in H. }
        destruct (Compat.check_file_encryption_with_feedback env dpath w3)
          as [w4 [v|e]]; simpl.
        2:{ intros H.
            repeat (apply elem_of_cons in H as [H|H]; [discriminate|]).
            by apply elem_of_nil in H. }
        destruct (Effects.status_code v =? 0); simpl; intros H;
          repeat (apply elem_of_cons in H as [H|H]; [discriminate|]);
          by apply elem_of_nil in H.
      * destruct (Effects.status_code r =? 0); simpl; intros H;
          repeat (apply elem_of_cons in H as [H|H]; [discriminate|]);
          by apply elem_of_nil in H.
    + split.
      * intros H. apply elem_of_cons in H as [H|H]; [by simplify_eq|].
        repeat (apply elem_of_cons in H as [H|H]; [discriminate|]).
        by apply elem_of_nil in H.
      * intros [_ ->]. apply elem_of_cons. by left.
  - intros He.
    unfold Compat.process_path, Compat.print, Effects.bind, Effects.ask,
      Effects.emit. simpl. rewrite He. reflexivity.
  - intros w1 r He Hd H0 H1.
    assert (Hrun : Compat.process_path env path w =
      (w1,
       [Compat.EvClassify path;
        Compat.EvPrint (Compat.PStatus (Effects.status r) path);
        Compat.EvLogInfo (Effects.status r +:+ ": " +:+ path);
        Compat.EvPrint Compat.PSkipUnrecognized;
        Compat.EvLogWarning ("文件未识别，跳过处理: " +:+ path)],
       Effects.Ok tt)).
    { unfold Compat.process_path, Compat.print, Effects.bind, Effects.call,
        Effects.ask, Effects.emit. simpl. rewrite He. simpl. rewrite Hd. simpl.
      destruct (Z.eqb_spec (Effects.status_code r) 1); [done|].
      destruct (Z.eqb_spec (Effects.status_code r) 0); [done|].
      reflexivity. }
    split; [exact Hrun|]. rewrite Hrun. reflexivity.
Qed.

Lemma not_found_only_from_existence_check_witness :
  Compat.outcomes
    (Effects.trace_of (Compat.process_path Demo.compat_env "unreadable.doc" tt))
    = [Compat.UnrecognizedSkipped]
  ∧ Compat.process_path Demo.compat_env "missing.doc" tt =
      (tt, [Compat.EvPrint (Compat.PNotFound "missing.doc");
            Compat.EvLogError ("文件不存在: " +:+ "missing.doc")],
       Effects.Ok tt).
Proof.
  split.
  - refine (proj2 (proj2 (proj2 (not_found_only_from_existence_check
              Demo.compat_env "unreadable.doc" tt))
              tt (Demo.detect "unreadable.doc") eq_refl eq_refl _ _));
      vm_compute; discriminate.
  - exact (proj1 (proj2 (not_found_only_from_existence_check
              Demo.compat_env "missing.doc" tt)) eq_refl).
Defined.

(** ** Batch enqueueing *)

Section BatchFacts.
Import Effects Gui.
Context {W : Type} (fs : FsEnv W).

Lemma node_nested_ind (P : node → Prop) :
  (∀ name, P (File name)) →
  (∀ name entries, Forall P entries → P (Dir name entries)) →
  ∀ n, P n.
Proof.
  intros Hfile Hdir. fix IH 1. intros [name|name entries].
  - apply Hfile.
  - apply Hdir. induction entries as [|c entries IHe]; constructor.
    + apply IH.
    + exact IHe.
Qed.

(** A loop of [put]s leaves the world alone and emits its puts. *)
Lemma for_each_put (l : list string) (f : string → task) (w : W) :
  for_each l (λ x, put (f x)) w = (w, EvPut <$> (f <$> l), Ok tt).
Proof.
  induction l as [|x l IH]; simpl; [reflexivity|].
  unfold bind. change (put (f x) w) with (w, [EvPut (f x)], @Ok unit tt).
  cbv beta iota. rewrite IH. reflexivity.
Qed.

Lemma for_each_walk (triples : list (string * list string * list string))
    (w : W) :
  for_each triples
    (λ '(root, _, files),
       for_each files (λ file, put ("decrypt", join fs root file))) w =
  (w, EvPut <$> (pair "decrypt" <$> walked_files fs triples), Ok tt).
Proof.
  induction triples as [|[[root dirs] files] triples IH]; simpl;
    [reflexivity|].
  unfold bind.
  rewrite (for_each_put files (λ file, ("decrypt", join fs root file)) w).
  rewrite IH. rewrite !fmap_app, <- !list_fmap_compose. reflexivity.
Qed.

Lemma walked_files_app t1 t2 :
  walked_files fs (t1 ++ t2) = walked_files fs t1 ++ walked_files fs t2.
Proof. unfold walked_files. apply flat_map_app. Qed.

(** The walk visits the files of a directory first and its
    sub-directories afterwards; the reference enumeration goes entry by
    entry.  Both list the same paths, each as often. *)
Lemma walk_entries_perm top (entries : list node) :
  Forall (λ c, ∀ top', walked_files fs (walk fs top' c) ≡ₚ
                       files_below fs top' c) entries →
  (join fs top <$> filenames entries) ++
    walked_files fs
      (flat_map (λ c, walk fs (join fs top (name_of c)) c) entries)
  ≡ₚ flat_map (λ c, match c with
                    | File name => [join fs top name]
                    | Dir name _ => files_below fs (join fs top name) c
                    end) entries.
Proof.
  induction 1 as [|c entries Hc _ IH]; [reflexivity|].
  destruct c as [name|name sub].
  - cbn [flat_map]. change (walk fs _ (File name)) with
      (@nil (string * list string * list string)).
    cbn [app]. unfold filenames in *. rewrite filter_cons_True by done.
    cbn [fmap list_fmap name_of app]. cbn [fmap list_fmap] in IH.
    apply Permutation_skip. exact IH.
  - cbn [flat_map]. unfold filenames in *.
    rewrite filter_cons_False by done.
    rewrite walked_files_app.
    rewrite (Hc (join fs top name)). cbn [name_of].
    rewrite Permutation_app_swap_app.
    apply Permutation_app_head. exact IH.
Qed.

Lemma walk_lists_files n : ∀ top,
  walked_files fs (walk fs top n) ≡ₚ files_below fs top n.
Proof.
  induction n as [name|name entries IH] using node_nested_ind; intros top.
  - reflexivity.
  - cbn [walk files_below]. unfold walked_files at 1. cbn [flat_map].
    fold (walked_files fs
            (flat_map (λ c, walk fs (join fs top (name_of c)) c) entries)).
    apply walk_entries_perm. exact IH.
Qed.

Lemma files_below_count n : ∀ top,
  is_dir n = true → length (files_below fs top n) = count_files n.
Proof.
  induction n as [name|name entries IH] using node_nested_ind;
    intros top Hd; [discriminate|].
  cbn [files_below count_files]. clear Hd.
  induction IH as [|c entries Hc _ IHe]; [reflexivity|].
  cbn [flat_map fmap list_fmap]. rewrite length_app, IHe.
  change (list_sum (count_files c :: (count_files <$> entries)))
    with (count_files c + list_sum (count_files <$> entries))%nat.
  f_equal. destruct c as [name'|name' sub]; [reflexivity|].
  apply Hc. reflexivity.
Qed.
End BatchFacts.

Lemma try_except_prefix {W E A : Type} (m : Effects.M W E A)
    (h : Effects.exn → Effects.M W E A) (w : W) :
  ∃ rest,
    Effects.trace_of (Effects.try_except m h w) =
      Effects.trace_of (m w) ++ rest.
Proof.
  unfold Effects.try_except, Effects.trace_of.
  destruct (m w) as [[w1 t1] [a|e]]; simpl.
  - exists []. by rewrite app_nil_r.
  - destruct (h e w1) as [[w2 t2] r]. simpl. eauto.
Qed.

Lemma bind_emit_trace {W E B : Type} (ev : E)
    (k : unit → Effects.M W E B) (w : W) :
  Effects.trace_of (Effects.bind (Effects.emit ev) k w) =
    ev :: Effects.trace_of (k tt w).
Proof.
  unfold Effects.bind, Effects.emit, Effects.trace_of.
  destruct (k tt w) as [[w2 t2] r]. reflexivity.
Qed.

Lemma enqueued_puts (l : list Gui.task) : Gui.enqueued (Gui.EvPut <$> l) = l.
Proof.
  induction l as [|x l IH]; [reflexivity|].
  change (Gui.enqueued (Gui.EvPut <$> (x :: l)))
    with (x :: Gui.enqueued (Gui.EvPut <$> l)).
  by rewrite IH.
Qed.

Lemma snd_decrypt_tasks (l : list string) :
  snd <$> (pair "decrypt" <$> l) = l.
Proof. induction l as [|x l IH]; [reflexivity|]. cbn. by rewrite IH. Qed.

Lemma puts_never_classify (l : list Gui.task) :
  existsb Gui.is_classify (Gui.EvPut <$> l) = false.
Proof. induction l as [|x l IH]; simpl; [reflexivity|]. exact IH. Qed.

(** The first thing a worker does is classify its file. *)
Lemma worker_classifies_first {W : Type} (env : Gui.Env W)
    (file : string) (w : W) :
  ∃ rest,
    Effects.trace_of (Gui.process_decrypt_task env file w) =
      Gui.EvClassify file :: rest.
Proof.
  unfold Gui.process_decrypt_task.
  destruct (try_except_prefix (Gui.decrypt_task_body env file)
              (Gui.decrypt_task_handler env file) w) as [rest ->].
  unfold Gui.decrypt_task_body. rewrite bind_emit_trace. simpl. eauto.
Qed.

(** C5.  Decrypting a directory puts one task on the queue for each file
    the recursive walk finds: the tasks are exactly the walk's files, the
    same paths as the entry-by-entry enumeration of the tree, as many as
    the tree has files.  Nothing is classified while enqueueing; each worker
    classifies its own file when it starts. *)
Theorem directory_enqueues_every_file {W : Type} (fs : Gui.FsEnv W)
    (env : Gui.Env W) (path : string) (w : W)
    (name : string) (entries : list Gui.node) :
  path ≠ "" →
  Gui.lookup_node fs path w = Some (Gui.Dir name entries) →
  let run := Gui.decrypt_file fs path w in
  let tasks := Gui.enqueued (Effects.trace_of run) in
  Effects.outcome_of run = Effects.Ok tt
  ∧ tasks = pair "decrypt" <$>
              Gui.walked_files fs (Gui.walk fs path (Gui.Dir name entries))
  ∧ snd <$> tasks ≡ₚ Gui.files_below fs path (Gui.Dir name entries)
  ∧ length tasks = Gui.count_files (Gui.Dir name entries)
  ∧ existsb Gui.is_classify (Effects.trace_of run) = false
  ∧ ∀ file w', ∃ rest,
      Effects.trace_of (Gui.process_decrypt_task env file w') =
        Gui.EvClassify file :: rest.
Proof.
  intros Hne Hdir run tasks.
  assert (Hrun : run =
    (w, [Gui.EvClearResults; Gui.EvAddResult ("正在解密: " +:+ path) "debug"] ++
        (Gui.EvPut <$> (pair "decrypt" <$>
           Gui.walked_files fs (Gui.walk fs path (Gui.Dir name entries)))),
     Effects.Ok tt)).
  { subst run. unfold Gui.decrypt_file.
    apply String.eqb_neq in Hne. rewrite Hne.
    unfold Effects.bind, Effects.emit, Effects.ask. rewrite Hdir.
    rewrite for_each_walk. reflexivity. }
  assert (Htasks : tasks = pair "decrypt" <$>
            Gui.walked_files fs (Gui.walk fs path (Gui.Dir name entries))).
  { subst tasks. rewrite Hrun. unfold Effects.trace_of. cbn [fst snd].
    unfold Gui.enqueued. rewrite omap_app. simpl.
    apply enqueued_puts. }
  assert (Hperm : snd <$> tasks ≡ₚ
            Gui.files_below fs path (Gui.Dir name entries)).
  { rewrite Htasks, snd_decrypt_tasks. apply walk_lists_files. }
  split; [by rewrite Hrun|]. split; [exact Htasks|]. split; [exact Hperm|].
  split; [|split].
  - rewrite <- (files_below_count fs (Gui.Dir name entries) path eq_refl).
    rewrite <- (Permutation_length Hperm). by rewrite length_fmap.
  - rewrite Hrun. unfold Effects.trace_of. cbn [fst snd].
    rewrite existsb_app. simpl. apply puts_never_classify.
  - intros file w'. apply worker_classifies_first.
Qed.

Lemma directory_enqueues_every_file_witness :
  Gui.enqueued (Effects.trace_of (Gui.decrypt_file Demo.fs_env "docs" tt)) =
    [("decrypt", "docs/a.doc"); ("decrypt", "docs/c.txt");
     ("decrypt", "docs/old/b.doc")].
Proof.
  refine (eq_trans (proj1 (proj2 (directory_enqueues_every_file Demo.fs_env
            Demo.gui_env "docs" tt "docs"
            [Gui.File "a.doc"; Gui.Dir "old" [Gui.File "b.doc"];
             Gui.File "c.txt"] _ eq_refl))) _).
  - discriminate.
  - reflexivity.
Defined.

(** ** The dispatch loop *)

Section SchedulerFacts.
Import Effects Gui.
Context (max_threads : value).

Lemma int_lt_capacity (n : nat) :
  int_lt (Z.of_nat n) max_threads = Ok true → (n < capacity max_threads)%nat.
Proof.
  unfold int_lt, capacity. destruct max_threads as [z|s|[]|]; intros H;
    try discriminate; injection H as H; apply Z.ltb_lt in H; lia.
Qed.

Lemma start_threads_inv queue : ∀ pool live next st1,
  sched_inv max_threads (Sched queue pool live next) →
  start_threads max_threads queue pool live next = Ok st1 →
  sched_inv max_threads st1.
Proof.
  induction queue as [|[task_type path] queue IH];
    intros pool live next st1 Hinv Hrun; simpl in Hrun.
  - destruct (int_lt _ max_threads) as [[]|e]; simplify_eq;
      destruct Hinv; by constructor.
  - destruct (int_lt _ max_threads) as [[]|e] eqn:Hlt; simplify_eq.
    2:{ destruct Hinv; by constructor. }
    destruct (String.eqb task_type "decrypt").
    2:{ apply (IH _ _ _ _ ltac:(destruct Hinv; by constructor) Hrun). }
    refine (IH _ _ _ _ _ Hrun).
    apply int_lt_capacity in Hlt.
    destruct Hinv as [Ha Hc Hn Hb]. simpl in *. constructor; simpl.
    + intros t [x Hx]. apply elem_of_app.
      destruct (decide (t = next)) as [->|Hne].
      * right. apply elem_of_cons. by left.
      * left. apply Ha. rewrite lookup_insert_ne in Hx by done. eauto.
    + intros t Ht. apply elem_of_app in Ht as [Ht|Ht].
      * apply Hc in Ht. lia.
      * apply elem_of_cons in Ht as [->|Ht]; [lia|].
        by apply elem_of_nil in Ht.
    + apply NoDup_app. split; [exact Hn|]. split.
      * intros t Ht Hin. apply Hc in Ht.
        apply elem_of_cons in Hin as [->|Hin]; [lia|].
        by apply elem_of_nil in Hin.
      * apply NoDup_singleton.
    + rewrite length_app. simpl. lia.
Qed.

Lemma remove_first_sublist x l : remove_first x l `sublist_of` l.
Proof.
  induction l as [|y l IH]; simpl; [constructor|].
  destruct (decide (x = y)).
  - by apply sublist_cons.
  - by apply sublist_skip.
Qed.

Lemma remove_first_keeps x t l : t ≠ x → t ∈ l → t ∈ remove_first x l.
Proof.
  intros Hne. induction l as [|y l IH]; simpl; [done|].
  intros Hin. apply elem_of_cons in Hin as [->|Hin].
  - destruct (decide (x = y)); [congruence|]. apply elem_of_cons. by left.
  - destruct (decide (x = y)); [exact Hin|].
    apply elem_of_cons. right. by apply IH.
Qed.

Lemma clean_loop_sublist live fuel : ∀ pool i,
  clean_loop live pool i fuel `sublist_of` pool.
Proof.
  induction fuel as [|fuel IH]; intros pool i; simpl; [done|].
  destruct (pool !! i) as [t|]; [|done].
  destruct (decide (is_Some (live !! t))); [apply IH|].
  etrans; [apply IH|]. apply remove_first_sublist.
Qed.

(** The clean-up loop removes no live thread (it can miss dead ones). *)
Lemma clean_loop_keeps_alive live fuel : ∀ pool i t,
  is_Some (live !! t) → t ∈ pool → t ∈ clean_loop live pool i fuel.
Proof.
  induction fuel as [|fuel IH]; intros pool i t Ht Hin; simpl; [done|].
  destruct (pool !! i) as [x|]; [|done].
  destruct (decide (is_Some (live !! x))) as [|Hdead]; [by apply IH|].
  apply IH; [done|]. apply remove_first_keeps; [|done].
  intros ->. contradiction.
Qed.

(** The rounds given to the clean-up loop are enough: it stops because
    the index has run off the list. *)
Lemma clean_loop_enough_fuel live f1 : ∀ pool i f2,
  (length pool - i ≤ f1)%nat → (f1 ≤ f2)%nat →
  clean_loop live pool i f1 = clean_loop live pool i f2.
Proof.
  induction f1 as [|f1 IH]; intros pool i f2 Hlen Hle.
  - destruct f2; simpl; [done|].
    rewrite (lookup_ge_None_2 pool i) by lia. done.
  - destruct f2 as [|f2]; [lia|]. simpl.
    destruct (pool !! i) as [t|] eqn:Hi; [|done].
    apply lookup_lt_Some in Hi.
    destruct (decide (is_Some (live !! t))).
    + apply IH; lia.
    + apply IH; [|lia].
      pose proof (sublist_length _ _ (remove_first_sublist t pool)). lia.
Qed.

Lemma step_inv st st1 :
  sched_inv max_threads st → step max_threads st st1 →
  sched_inv max_threads st1.
Proof.
  intros Hinv Hstep. destruct Hstep as [t st|st st1 Hs|st e Hs|st|t st Ht].
  - destruct Hinv; by constructor.
  - destruct st as [queue pool live next]. unfold start_phase in Hs.
    simpl in Hs. by eapply start_threads_inv.
  - exact Hinv.
  - destruct Hinv as [Ha Hc Hn Hb].
    pose proof (clean_loop_sublist (alive st) (length (thread_pool st))
                  (thread_pool st) 0) as Hsub.
    constructor; simpl.
    + intros t Ht. apply clean_loop_keeps_alive; [done|]. by apply Ha.
    + intros t Ht. apply Hc. by eapply elem_of_sublist.
    + by eapply sublist_NoDup.
    + apply sublist_length in Hsub. lia.
  - destruct Hinv as [Ha Hc Hn Hb]. constructor; simpl; try done.
    intros t' [x Hx]. apply Ha.
    destruct (decide (t = t')) as [->|Hne].
    + by rewrite lookup_delete_eq in Hx.
    + rewrite lookup_delete_ne in Hx by done. eauto.
Qed.

Lemma reachable_inv st : reachable max_threads st → sched_inv max_threads st.
Proof.
  induction 1 as [|st st1 _ IH Hstep].
  - constructor; simpl.
    + intros t [x Hx]. by rewrite lookup_empty in Hx.
    + intros t Ht. by apply elem_of_nil in Ht.
    + constructor.
    + lia.
  - by eapply step_inv.
Qed.

(** The live workers never outnumber the capacity. *)
Lemma running_le_capacity st :
  reachable max_threads st → (running st ≤ capacity max_threads)%nat.
Proof.
  intros Hr. destruct (reachable_inv st Hr) as [Ha _ Hn Hb].
  unfold running. rewrite <- size_dom.
  etrans; [|exact Hb].
  rewrite <- (size_list_to_set (C:=gset nat) (thread_pool st)) by done.
  apply subseteq_size. intros t Ht.
  apply elem_of_list_to_set. apply Ha. by apply elem_of_dom.
Qed.
End SchedulerFacts.

(** A whole tick is two steps of the scheduler. *)
Lemma process_queue_reachable (max_threads : Effects.value) (st : Gui.sched) :
  Gui.reachable max_threads st →
  Gui.reachable max_threads (Gui.process_queue max_threads st).
Proof.
  intros Hr. unfold Gui.process_queue.
  destruct (Gui.start_phase max_threads st) as [st1|e] eqn:Hs; [|exact Hr].
  eapply Gui.reach_step; [|apply Gui.step_clean].
  eapply Gui.reach_step; [exact Hr|]. by apply Gui.step_start.
Qed.

Lemma puts_reachable (max_threads : Effects.value) (tasks : list Gui.task) :
  ∀ st, Gui.reachable max_threads st →
        Gui.reachable max_threads
          (Gui.Sched (Gui.task_queue st ++ tasks) (Gui.thread_pool st)
                     (Gui.alive st) (Gui.started st)).
Proof.
  induction tasks as [|t tasks IH]; intros st Hr.
  - rewrite app_nil_r. by destruct st.
  - specialize (IH _ (Gui.reach_step _ _ _ Hr (Gui.step_put _ t st))).
    simpl in IH. by rewrite <- app_assoc in IH.
Qed.

(** C1.  In every state the scheduler reaches, whatever is put on the
    queue and whenever the ticks and the workers' returns come, the number
    of workers started and not yet finished is at most the configured
    [max_threads] (a non-negative integer); without a configured value the
    bound is 5. *)
Theorem live_workers_bounded (settings : gmap string Effects.value)
    (st : Gui.sched) :
  Gui.reachable (Gui.max_threads_of settings) st →
  (∀ z : Z, Gui.max_threads_of settings = Effects.VInt z → 0 ≤ z →
            Z.of_nat (Gui.running st) ≤ z)
  ∧ (settings !! "max_threads" = None →
     Gui.max_threads_of settings = Effects.VInt 5
     ∧ Z.of_nat (Gui.running st) ≤ 5).
Proof.
  intros Hr.
  pose proof (running_le_capacity _ st Hr) as Hcap.
  split.
  - intros z Hz Hpos. rewrite Hz in Hcap. simpl in Hcap. lia.
  - intros Hnone. unfold Gui.max_threads_of in *. rewrite Hnone in *.
    simpl in *. split; [reflexivity|]. lia.
Qed.

Lemma live_workers_bounded_witness :
  Z.of_nat
    (Gui.running
       (Gui.process_queue (Effects.VInt 2)
          (Gui.Sched [("decrypt", "a.doc"); ("decrypt", "b.doc");
                      ("decrypt", "c.doc")] [] ∅ 0))) ≤ 2
  ∧ Gui.running
      (Gui.process_queue (Effects.VInt 2)
         (Gui.Sched [("decrypt", "a.doc"); ("decrypt", "b.doc");
                     ("decrypt", "c.doc")] [] ∅ 0)) = 2%nat.
Proof.
  split; [|reflexivity].
  assert (Hdefault := proj2 (live_workers_bounded ∅ Gui.initial
                                (Gui.reach_initial _)) eq_refl).
  refine (proj1 (live_workers_bounded Demo.settings _ _) 2 eq_refl _); [|lia].
  apply process_queue_reachable.
  apply (puts_reachable _ [("decrypt", "a.doc"); ("decrypt", "b.doc");
                           ("decrypt", "c.doc")] Gui.initial).
  apply Gui.reach_initial.
Defined.

(** ** The update check *)

Section UpdateFacts.
Import Effects Update.
Context {W : Type} (env : Env W).

Lemma background_statuses t : background t → statuses t = [].
Proof.
  induction 1 as [|ev t Hev _ IH]; [reflexivity|].
  unfold statuses in *. destruct ev; try discriminate; simpl; exact IH.
Qed.

Lemma background_requests t : background t → requests t = [].
Proof.
  induction 1 as [|ev t Hev _ IH]; [reflexivity|].
  unfold requests in *. destruct ev; try discriminate; simpl; exact IH.
Qed.

Lemma statuses_app t1 t2 : statuses (t1 ++ t2) = statuses t1 ++ statuses t2.
Proof. apply omap_app. Qed.

Lemma requests_app t1 t2 : requests (t1 ++ t2) = requests t1 ++ requests t2.
Proof. apply omap_app. Qed.

(** A guarded write to the operation log never raises. *)
Lemma quiet_log_spec bound operation target outcome detail w :
  ∃ w1 t,
    quiet_log env bound operation target outcome detail w = (w1, t, Ok tt)
    ∧ background t.
Proof.
  unfold quiet_log, try_except, bind, emit, call, raise, ret.
  destruct bound; simpl.
  - destruct (log_operation env operation target outcome detail w)
      as [w1 [[]|e]]; simpl; eexists _, _; (split; [reflexivity|]);
      repeat constructor.
  - eexists _, _. split; [reflexivity|]. constructor.
Qed.

Lemma prelude_spec w :
  ∃ w1 t bound,
    prelude env w = (w1, EvSetStatus "正在检查新版本..." :: t, Ok bound)
    ∧ background t.
Proof.
  unfold prelude, try_except, bind, emit, call, ret.
  destruct (get_logger_manager env w) as [w1 [[]|e]]; simpl.
  - destruct (quiet_log_spec true "版本检查" "online" "进行中" None w1)
      as (w2 & t & -> & Ht). simpl. rewrite app_nil_r.
    eexists _, _, _. split; [reflexivity|].
    unfold background. constructor; [reflexivity|exact Ht].
  - eexists _, _, _. split; [reflexivity|]. repeat constructor.
Qed.

(** Each handler sets its status text, schedules its dialog, logs, and
    returns. *)
Lemma handlers_spec bound e w :
  ∃ w1 t,
    handlers env bound e w =
      (w1,
       EvSetStatus (if isinstance_Timeout e then "检查超时"
                    else if isinstance_ConnectionError e then "网络错误"
                    else "检查失败") :: t,
       Ok tt)
    ∧ background t.
Proof.
  unfold handlers, bind, emit.
  destruct (isinstance_Timeout e); [|destruct (isinstance_ConnectionError e)];
    match goal with
    | |- context [quiet_log env ?b ?o ?t ?c ?d ?w] =>
        destruct (quiet_log_spec b o t c d w) as (w2 & t2 & -> & Ht)
    end; simpl; eexists _, _; (split; [reflexivity|]);
    unfold background; (constructor; [reflexivity|exact Ht]).
Qed.

Ltac ustep :=
  match goal with
  | |- context [requests_get env ?u ?t ?w] =>
      destruct (requests_get env u t w) as [? [?|?]] eqn:?
  | |- context [json ?r] => destruct (json r) as [?|?] eqn:?
  | |- context [default _ (?m !! ?k)] =>
      destruct (default (VStr "") (m !! k)) as [?|?|?|] eqn:?
  | |- context [Z.eqb ?a ?b] => destruct (Z.eqb a b) eqn:?
  | |- context [Z.gtb ?a ?b] => destruct (Z.gtb a b) eqn:?
  | |- context [quiet_log env ?b ?o ?t ?c ?d ?w] =>
      let Ht := fresh "Hbg" in
      destruct (quiet_log_spec b o t c d w) as (? & ? & -> & Ht)
  end; simpl in *.

(** The request comes first, once, with its ten seconds; what follows
    sets statuses and schedules dialogs but asks the network nothing. *)
Lemma fetch_spec bound w :
  ∃ w1 t r,
    fetch env bound w = (w1, EvHttpGet api_url 10 :: t, r)
    ∧ requests t = []
    ∧ (∀ w2 e, requests_get env api_url 10 w = (w2, Raise e) →
         t = [] ∧ r = Raise e).
Proof.
  unfold fetch, lstrip_value, first_200, bind, emit, call, ret, raise.
  simpl.
  repeat ustep.
  all: eexists _, _, _; (split; [reflexivity|]).
  all: split; [| intros; simplify_eq; try (split; reflexivity)].
  all: unfold requests; simpl; rewrite ?omap_app; simpl;
    fold (requests); rewrite ?background_requests by assumption;
    reflexivity.
Qed.
End UpdateFacts.

(** The thread of the update check: the prelude, the request, and for a
    raised exception the handler that matches it. *)
Lemma update_thread_run {W : Type} (env : Update.Env W) (w : W) :
  ∃ w0 t0 bound w1 t1 r,
    Update.prelude env w =
      (w0, Update.EvSetStatus "正在检查新版本..." :: t0, Effects.Ok bound)
    ∧ Update.background t0
    ∧ Update.fetch env bound w0 =
        (w1, Update.EvHttpGet Update.api_url 10 :: t1, r)
    ∧ Update.requests t1 = []
    ∧ (∀ w2 e, Update.requests_get env Update.api_url 10 w0 =
                 (w2, Effects.Raise e) → r = Effects.Raise e)
    ∧ match r with
      | Effects.Ok _ =>
          Update.check_updates_thread env w =
            (w1,
             (Update.EvSetStatus "正在检查新版本..." :: t0) ++
             Update.EvHttpGet Update.api_url 10 :: t1,
             Effects.Ok tt)
      | Effects.Raise e =>
          ∃ w2 t2,
            Update.background t2
            ∧ Update.check_updates_thread env w =
                (w2,
                 (Update.EvSetStatus "正在检查新版本..." :: t0) ++
                 (Update.EvHttpGet Update.api_url 10 :: t1) ++
                 Update.EvSetStatus
                   (if Effects.isinstance_Timeout e then "检查超时"
                    else if Effects.isinstance_ConnectionError e
                         then "网络错误" else "检查失败") :: t2,
                 Effects.Ok tt)
      end.
Proof.
  destruct (prelude_spec env w) as (w0 & t0 & bound & Hp & Hb0).
  destruct (fetch_spec env bound w0) as (w1 & t1 & r & Hf & Hr1 & Hget).
  exists w0, t0, bound, w1, t1, r.
  split; [exact Hp|]. split; [exact Hb0|]. split; [exact Hf|].
  split; [exact Hr1|]. split; [intros w2 e He; apply (Hget w2 e He)|].
  unfold Update.check_updates_thread, Effects.bind, Effects.try_except.
  rewrite Hp, Hf. destruct r as [[]|e]; [reflexivity|].
  destruct (handlers_spec env bound e w1) as (w2 & t2 & -> & Hb2).
  exists w2, t2. split; [exact Hb2|reflexivity].
Qed.

Lemma final_status_last (t1 t2 : list Update.event) (s : string) :
  Update.background t2 →
  Update.final_status (t1 ++ Update.EvSetStatus s :: t2) = Some s.
Proof.
  intros Hb. unfold Update.final_status.
  rewrite statuses_app.
  change (Update.statuses (Update.EvSetStatus s :: t2))
    with (s :: Update.statuses t2).
  rewrite (background_statuses t2 Hb). apply last_snoc.
Qed.

(** C8.  The update check never raises: neither the routine that starts
    the thread nor the thread.  The thread issues one GET, with a timeout
    of 10 seconds.  When the request, or anything after it, raises, the
    status line ends on one of three texts: the one for a timeout, the one
    for a connection failure that is not a timeout, and the one for any
    other failure; the three texts differ. *)
Theorem update_failures_are_told_apart {W : Type} (env : Update.Env W)
    (w : W) :
  let run := Update.check_updates_thread env w in
  let told (e : Effects.exn) : string :=
    if Effects.isinstance_Timeout e then "检查超时"
    else if Effects.isinstance_ConnectionError e then "网络错误"
    else "检查失败" in
  Effects.outcome_of run = Effects.Ok tt
  ∧ Effects.outcome_of (Update.check_for_updates env w) = Effects.Ok tt
  ∧ Update.requests (Effects.trace_of run) = [(Update.api_url, 10)]
  ∧ (∀ w0 t0 bound w1 e,
       Update.prelude env w = (w0, t0, Effects.Ok bound) →
       Update.requests_get env Update.api_url 10 w0 = (w1, Effects.Raise e) →
       Update.final_status (Effects.trace_of run) = Some (told e))
  ∧ (∀ w0 t0 bound w1 t1 e,
       Update.prelude env w = (w0, t0, Effects.Ok bound) →
       Update.fetch env bound w0 = (w1, t1, Effects.Raise e) →
       Update.final_status (Effects.trace_of run) = Some (told e))
  ∧ ("检查超时" ≠ "网络错误" ∧ "检查超时" ≠ "检查失败" ∧ "网络错误" ≠ "检查失败").
Proof.
  intros run told.
  destruct (update_thread_run env w)
    as (w0 & t0 & bound & w1 & t1 & r & Hp & Hb0 & Hf & Hr1 & Hget & Hrun).
  assert (Hfail : ∀ e, r = Effects.Raise e →
            Update.final_status (Effects.trace_of run) = Some (told e)).
  { intros e ->. destruct Hrun as (w2 & t2 & Hb2 & Hrun).
    subst run. rewrite Hrun. unfold Effects.trace_of. cbn [fst snd].
    rewrite app_assoc. by apply final_status_last. }
  split; [|split; [|split; [|split; [|split]]]].
  - subst run. destruct r as [[]|e].
    + by rewrite Hrun.
    + destruct Hrun as (w2 & t2 & _ & ->). reflexivity.
  - unfold Update.check_for_updates, Effects.bind, Effects.emit.
    destruct (Update.REQUESTS_AVAILABLE env); reflexivity.
  - subst run. destruct r as [[]|e].
    + rewrite Hrun. unfold Effects.trace_of. cbn [fst snd].
      rewrite requests_app.
      change (Update.requests (Update.EvSetStatus "正在检查新版本..." :: t0))
        with (Update.requests t0).
      change (Update.requests (Update.EvHttpGet Update.api_url 10 :: t1))
        with ((Update.api_url, 10) :: Update.requests t1).
      by rewrite (background_requests t0 Hb0), Hr1.
    + destruct Hrun as (w2 & t2 & Hb2 & ->).
      unfold Effects.trace_of. cbn [fst snd].
      rewrite !requests_app.
      change (Update.requests (Update.EvSetStatus "正在检查新版本..." :: t0))
        with (Update.requests t0).
      change (Update.requests (Update.EvHttpGet Update.api_url 10 :: t1))
        with ((Update.api_url, 10) :: Update.requests t1).
      match goal with
      | |- context [Update.requests (Update.EvSetStatus ?s :: t2)] =>
          change (Update.requests (Update.EvSetStatus s :: t2))
            with (Update.requests t2)
      end.
      by rewrite (background_requests t0 Hb0), Hr1,
        (background_requests t2 Hb2).
  - intros w0' t0' bound' w1' e Hp' Hg. rewrite Hp in Hp'.
    injection Hp' as <- _ <-. apply Hfail. by eapply Hget.
  - intros w0' t0' bound' w1' t1' e Hp' Hf'. rewrite Hp in Hp'.
    injection Hp' as <- _ <-. rewrite Hf in Hf'. injection Hf' as _ _ ->.
    by apply Hfail.
  - repeat split; discriminate.
Qed.

Lemma update_failures_are_told_apart_witness :
  Update.final_status
    (Effects.trace_of
       (Update.check_updates_thread
          (Demo.update_env (Effects.Exn Effects.ConnectTimeout "timed out")) tt))
  = Some "检查超时".
Proof.
  exact (proj1 (proj2 (proj2 (proj2
           (update_failures_are_told_apart
              (Demo.update_env (Effects.Exn Effects.ConnectTimeout "timed out"))
              tt))))
           tt _ true tt _ eq_refl eq_refl).
Defined.

(** ** More about the dispatch loop *)

Section DispatchFacts.
Import Effects Gui Dispatch.
Context (max_threads : value).

Lemma remove_first_at (l : list nat) : ∀ i x,
  NoDup l → l !! i = Some x → remove_first x l = take i l ++ drop (S i) l.
Proof.
  induction l as [|y l IH]; intros i x Hn Hi; [done|].
  apply NoDup_cons in Hn as [Hy Hn]. destruct i as [|i]; simpl in *.
  - simplify_eq. by rewrite decide_True.
  - rewrite decide_False.
    + by rewrite (IH i x Hn Hi).
    + intros ->. apply Hy. by eapply list_elem_of_lookup_2.
Qed.

Lemma clean_loop_all_finished (live : gmap nat string) fuel : ∀ pool i,
  NoDup pool → (∀ t, t ∈ pool → live !! t = None) →
  (length pool - i ≤ fuel)%nat →
  clean_loop live pool i fuel = take i pool ++ odds (drop i pool).
Proof.
  induction fuel as [|fuel IH]; intros pool i Hn Hdead Hlen.
  - simpl. rewrite (drop_ge pool i) by lia. rewrite take_ge by lia.
    by rewrite app_nil_r.
  - simpl. destruct (pool !! i) as [x|] eqn:Hi.
    2:{ apply lookup_ge_None in Hi. rewrite (drop_ge pool i) by lia.
        rewrite take_ge by lia. by rewrite app_nil_r. }
    pose proof (lookup_lt_Some _ _ _ Hi) as Hlt.
    rewrite decide_False.
    2:{ rewrite (Hdead x) by (by eapply list_elem_of_lookup_2).
        by intros [? ?]. }
    rewrite (remove_first_at pool i x Hn Hi).
    assert (Hsub : take i pool ++ drop (S i) pool `sublist_of` pool).
    { rewrite <- (remove_first_at pool i x Hn Hi).
      apply remove_first_sublist. }
    rewrite IH.
    + rewrite (drop_S pool x i Hi).
      rewrite take_app_ge by (rewrite length_take; lia).
      rewrite drop_app_ge by (rewrite length_take; lia).
      rewrite !length_take_le by lia.
      replace (S i - i)%nat with 1%nat by lia.
      destruct (drop (S i) pool) as [|y rest]; simpl.
      * by rewrite app_nil_r.
      * rewrite drop_0. by rewrite <- app_assoc.
    + by eapply sublist_NoDup.
    + intros t Ht. apply Hdead. by eapply elem_of_sublist.
    + rewrite length_app, length_take, length_drop. lia.
Qed.
End DispatchFacts.

Section DispatchFacts2.
Import Effects Gui Dispatch.
Context (max_threads : value).

Lemma odds_length (l : list nat) : length (odds l) = Nat.div2 (length l).
Proof.
  revert l. fix IH 1. intros [|x [|y l]]; [reflexivity..|].
  simpl. f_equal. apply IH.
Qed.

Lemma decrypt_paths_app q1 q2 :
  decrypt_paths (q1 ++ q2) = decrypt_paths q1 ++ decrypt_paths q2.
Proof. unfold decrypt_paths. by rewrite List.filter_app, fmap_app. Qed.

Lemma decrypt_paths_cons task_type path q :
  decrypt_paths ((task_type, path) :: q) =
  if String.eqb task_type "decrypt" then path :: decrypt_paths q
  else decrypt_paths q.
Proof.
  unfold decrypt_paths, is_decrypt. simpl.
  by destruct (String.eqb task_type "decrypt").
Qed.

Lemma start_threads_fifo queue : ∀ pool live next st1,
  start_threads max_threads queue pool live next = Ok st1 →
  ∃ n,
    task_queue st1 = drop n queue
    ∧ thread_pool st1 =
        pool ++ seq next (length (decrypt_paths (take n queue)))
    ∧ started st1 = (next + length (decrypt_paths (take n queue)))%nat
    ∧ (∀ j path, decrypt_paths (take n queue) !! j = Some path →
                 alive st1 !! (next + j)%nat = Some path)
    ∧ (∀ t, (t < next)%nat → alive st1 !! t = live !! t)
    ∧ (task_queue st1 = [] ∨
       int_lt (Z.of_nat (length (thread_pool st1))) max_threads = Ok false).
Proof.
  induction queue as [|[task_type path] queue IH];
    intros pool live next st1 Hrun; simpl in Hrun.
  - exists 0%nat.
    destruct (int_lt _ max_threads) as [[]|e]; simplify_eq; simpl;
      rewrite app_nil_r, Nat.add_0_r; repeat split; auto; done.
  - destruct (int_lt _ max_threads) as [[]|e] eqn:Hlt; simplify_eq.
    2:{ exists 0%nat. simpl. rewrite app_nil_r, Nat.add_0_r.
        repeat split; auto; done. }
    destruct (String.eqb task_type "decrypt") eqn:Hty.
    + destruct (IH _ _ _ _ Hrun) as (n & Hq & Hp & Hs & Hnew & Hold & Hfull).
      exists (S n). cbn [take drop]. rewrite decrypt_paths_cons, Hty.
      cbn [length seq].
      split; [exact Hq|]. split; [by rewrite Hp, <- app_assoc|].
      split; [lia|]. split; [|split; [|exact Hfull]].
      * intros [|j] p Hj; simpl in Hj.
        -- simplify_eq. rewrite Nat.add_0_r, Hold by lia.
           by rewrite lookup_insert_eq.
        -- replace (next + S j)%nat with (S next + j)%nat by lia.
           by apply Hnew.
      * intros t Ht. rewrite Hold by lia. by rewrite lookup_insert_ne by lia.
    + destruct (IH _ _ _ _ Hrun) as (n & Hq & Hp & Hs & Hnew & Hold & Hfull).
      exists (S n). cbn [take drop]. rewrite decrypt_paths_cons, Hty. done.
Qed.
End DispatchFacts2.

(** X1.  The clean-up pass of a tick only shortens the pool: it keeps
    every live thread, what it removes has finished, and it touches neither
    the queue nor the threads themselves. *)
Theorem clean_up_removes_only_finished (st : Gui.sched) :
  Gui.thread_pool (Gui.clean_threads st) `sublist_of` Gui.thread_pool st
  ∧ (∀ t, is_Some (Gui.alive st !! t) → t ∈ Gui.thread_pool st →
          t ∈ Gui.thread_pool (Gui.clean_threads st))
  ∧ (∀ t, t ∈ Gui.thread_pool st →
          t ∉ Gui.thread_pool (Gui.clean_threads st) →
          Gui.alive st !! t = None)
  ∧ Gui.alive (Gui.clean_threads st) = Gui.alive st
  ∧ Gui.task_queue (Gui.clean_threads st) = Gui.task_queue st.
Proof.
  split; [apply clean_loop_sublist|]. split; [|split; [|done]].
  - intros t Ht Hin. by apply clean_loop_keeps_alive.
  - intros t Hin Hout. destruct (Gui.alive st !! t) eqn:Hl; [|done].
    exfalso. apply Hout. apply clean_loop_keeps_alive; [by eexists|done].
Qed.

Lemma clean_up_removes_only_finished_witness :
  1%nat ∈ Gui.thread_pool
            (Gui.clean_threads (Gui.Sched [] [0; 1; 2]%nat {[ 1%nat := "b.doc" ]} 3)).
Proof.
  refine (proj1 (proj2 (clean_up_removes_only_finished
            (Gui.Sched [] [0; 1; 2]%nat {[ 1%nat := "b.doc" ]} 3))) 1%nat _ _).
  - by eexists.
  - simpl. apply elem_of_cons. right. apply elem_of_cons. by left.
Defined.

(** X2.  Removing from the pool while iterating over it makes the pass
    skip the neighbour of every thread it removes: when all the threads of
    the pool have finished, one pass removes only those at even positions
    and leaves the other half in the pool. *)
Theorem clean_up_skips_every_other_finished_thread
    (max_threads : Effects.value) (st : Gui.sched) :
  Gui.reachable max_threads st →
  Gui.alive st = ∅ →
  Gui.thread_pool (Gui.clean_threads st) = Dispatch.odds (Gui.thread_pool st)
  ∧ length (Gui.thread_pool (Gui.clean_threads st)) =
      Nat.div2 (length (Gui.thread_pool st)).
Proof.
  intros Hr Hempty.
  assert (H : Gui.thread_pool (Gui.clean_threads st) =
              Dispatch.odds (Gui.thread_pool st)).
  { simpl. rewrite (clean_loop_all_finished (Gui.alive st)).
    - by rewrite drop_0.
    - apply (Gui.inv_nodup _ _ (reachable_inv max_threads st Hr)).
    - intros t _. by rewrite Hempty, lookup_empty.
    - lia. }
  split; [exact H|]. rewrite H. apply odds_length.
Qed.

Lemma clean_up_skips_every_other_finished_thread_witness :
  Gui.thread_pool
    (Gui.clean_threads
       (Gui.Sched [] [0; 1; 2]%nat ∅ 3)) = [1%nat].
Proof.
  refine (proj1 (clean_up_skips_every_other_finished_thread (Effects.VInt 3)
            (Gui.Sched [] [0; 1; 2]%nat ∅ 3) _ eq_refl)).
  pose (m := <[2%nat := "c.doc"]> (<[1%nat := "b.doc"]>
                (<[0%nat := "a.doc"]> (∅ : gmap nat string)))).
  assert (H0 : Gui.reachable (Effects.VInt 3)
                 (Gui.Sched [("decrypt", "a.doc"); ("decrypt", "b.doc");
                             ("decrypt", "c.doc")] [] ∅ 0)).
  { exact (puts_reachable (Effects.VInt 3)
             [("decrypt", "a.doc"); ("decrypt", "b.doc");
              ("decrypt", "c.doc")] Gui.initial (Gui.reach_initial _)). }
  assert (H1 : Gui.reachable (Effects.VInt 3)
                 (Gui.Sched [] [0; 1; 2]%nat m 3)).
  { eapply Gui.reach_step; [exact H0|]. by apply Gui.step_start. }
  assert (H2 : Gui.reachable (Effects.VInt 3)
                 (Gui.Sched [] [0; 1; 2]%nat (delete 0%nat m) 3)).
  { eapply Gui.reach_step; [exact H1|].
    exact (Gui.step_exit (Effects.VInt 3) 0%nat (Gui.Sched [] [0; 1; 2]%nat m 3)
             ltac:(by eexists)). }
  assert (H3 : Gui.reachable (Effects.VInt 3)
                 (Gui.Sched [] [0; 1; 2]%nat (delete 1%nat (delete 0%nat m)) 3)).
  { eapply Gui.reach_step; [exact H2|].
    exact (Gui.step_exit (Effects.VInt 3) 1%nat (Gui.Sched [] [0; 1; 2]%nat (delete 0%nat m) 3)
             ltac:(by eexists)). }
  eapply Gui.reach_step; [exact H3|].
  exact (Gui.step_exit (Effects.VInt 3) 2%nat (Gui.Sched [] [0; 1; 2]%nat (delete 1%nat (delete 0%nat m)) 3)
             ltac:(by eexists)).
Defined.

(** X3.  Admission is first in, first out and leaves no slot unused: the
    loop takes a prefix of the queue, gives the decrypt tasks of that prefix
    fresh threads in the order of the queue, each with its task's path,
    leaves the older threads alone, and stops only when the queue is empty or
    the pool is full. *)
Theorem admission_is_fifo (max_threads : Effects.value)
    (queue : list Gui.task) (pool : list nat) (live : gmap nat string)
    (next : nat) (st1 : Gui.sched) :
  Gui.start_threads max_threads queue pool live next = Effects.Ok st1 →
  ∃ n : nat,
    Gui.task_queue st1 = drop n queue
    ∧ Gui.thread_pool st1 =
        pool ++ seq next (length (Dispatch.decrypt_paths (take n queue)))
    ∧ Gui.started st1 =
        (next + length (Dispatch.decrypt_paths (take n queue)))%nat
    ∧ (∀ j path, Dispatch.decrypt_paths (take n queue) !! j = Some path →
                 Gui.alive st1 !! (next + j)%nat = Some path)
    ∧ (∀ t, (t < next)%nat → Gui.alive st1 !! t = live !! t)
    ∧ (Gui.task_queue st1 = [] ∨
       Gui.int_lt (Z.of_nat (length (Gui.thread_pool st1))) max_threads =
         Effects.Ok false).
Proof. apply start_threads_fifo. Qed.

Lemma admission_is_fifo_witness :
  ∃ n : nat,
    drop n [("decrypt", "a.doc"); ("decrypt", "b.doc"); ("decrypt", "c.doc")]
    = [("decrypt", "c.doc")].
Proof.
  destruct (admission_is_fifo (Effects.VInt 2)
              [("decrypt", "a.doc"); ("decrypt", "b.doc"); ("decrypt", "c.doc")]
              [] ∅ 0
              (Gui.Sched [("decrypt", "c.doc")] [0; 1]%nat
                 (<[1%nat := "b.doc"]> (<[0%nat := "a.doc"]> ∅)) 2)
              eq_refl) as (n & Hq & _).
  exists n. symmetry. exact Hq.
Defined.

(** X4.  The dispatch loop neither loses nor duplicates a decrypt task:
    threads started plus decrypt tasks waiting stays the same through every
    step, except that putting a decrypt task adds one. *)
Theorem dispatch_accounts_for_every_task (max_threads : Effects.value)
    (st st1 : Gui.sched) :
  Gui.step max_threads st st1 →
  Dispatch.accounted st1 = Dispatch.accounted st
  ∨ (∃ path, Gui.task_queue st1 = Gui.task_queue st ++ [("decrypt", path)]
             ∧ Dispatch.accounted st1 = S (Dispatch.accounted st)).
Proof.
  intros Hstep. destruct Hstep as [[ty path] st|st st1 Hs|st e Hs|st|t st Ht].
  - unfold Dispatch.accounted. cbn [Gui.task_queue Gui.started].
    rewrite decrypt_paths_app, length_app.
    rewrite decrypt_paths_cons.
    destruct (String.eqb_spec ty "decrypt") as [->|Hne]; simpl.
    + right. exists path. split; [done|]. lia.
    + left. lia.
  - left. destruct st as [queue pool live next]. unfold Gui.start_phase in Hs.
    simpl in Hs.
    destruct (start_threads_fifo max_threads queue pool live next st1 Hs)
      as (n & Hq & _ & Hstarted & _).
    unfold Dispatch.accounted. simpl. rewrite Hq, Hstarted.
    rewrite <- (take_drop n queue) at 3.
    rewrite decrypt_paths_app, length_app. lia.
  - by left.
  - by left.
  - by left.
Qed.

Lemma dispatch_accounts_for_every_task_witness :
  Dispatch.accounted
    (Gui.Sched [("decrypt", "c.doc")] [0; 1]%nat
       (<[1%nat := "b.doc"]> (<[0%nat := "a.doc"]> ∅)) 2) = 3%nat.
Proof.
  destruct (dispatch_accounts_for_every_task (Effects.VInt 2)
              (Gui.Sched [("decrypt", "a.doc"); ("decrypt", "b.doc");
                          ("decrypt", "c.doc")] [] ∅ 0)
              (Gui.Sched [("decrypt", "c.doc")] [0; 1]%nat
                 (<[1%nat := "b.doc"]> (<[0%nat := "a.doc"]> ∅)) 2)
              (Gui.step_start (Effects.VInt 2)
                 (Gui.Sched [("decrypt", "a.doc"); ("decrypt", "b.doc");
                             ("decrypt", "c.doc")] [] ∅ 0)
                 (Gui.Sched [("decrypt", "c.doc")] [0; 1]%nat
                    (<[1%nat := "b.doc"]> (<[0%nat := "a.doc"]> ∅)) 2)
                 eq_refl)) as [H|(path & Hq & _)].
  - exact H.
  - discriminate Hq.
Defined.

(** X5.  With [max_threads] set to zero, to a negative number, to False
    or to something that is not a number, the loop never starts a worker:
    the pool stays empty and a tick leaves the queue as it is, so queued
    tasks wait for ever. *)
Theorem no_capacity_no_worker (max_threads : Effects.value)
    (st : Gui.sched) :
  Gui.capacity max_threads = 0%nat →
  Gui.reachable max_threads st →
  Gui.thread_pool st = [] ∧ Gui.started st = 0%nat ∧ Gui.alive st = ∅
  ∧ Gui.process_queue max_threads st = st.
Proof.
  intros Hcap Hr.
  assert (Hstart : ∀ queue,
            match Gui.start_threads max_threads queue [] ∅ 0 with
            | Effects.Ok st1 => st1 = Gui.Sched queue [] ∅ 0
            | Effects.Raise _ => True
            end).
  { intros queue. unfold Gui.capacity in Hcap.
    destruct max_threads as [z|s|[]|]; simpl in *; try done.
    - assert (Hz : (Z.of_nat 0 <? z) = false) by (apply Z.ltb_ge; lia).
      destruct queue as [|[ty path] queue]; cbn -[Z.ltb Z.of_nat];
        by rewrite Hz.
    - destruct queue as [|[ty path] queue]; simpl; done.
    - destruct queue as [|[ty path] queue]; simpl; done.
    - destruct queue as [|[ty path] queue]; simpl; done. }
  assert (Hinv : Gui.thread_pool st = [] ∧ Gui.started st = 0%nat
                 ∧ Gui.alive st = ∅).
  { induction Hr as [|st st1 _ IH Hstep]; [done|].
    destruct IH as (Hp & Hs & Ha).
    destruct Hstep as [t st|st st1 Hst|st e Hst|st|t st Ht]; simpl; try done.
    - destruct st as [queue pool live next]. simpl in *. subst.
      unfold Gui.start_phase in Hst. simpl in Hst.
      specialize (Hstart queue). rewrite Hst in Hstart. by subst.
    - by rewrite Hp.
    - rewrite Ha, lookup_empty in Ht. by destruct Ht. }
  destruct Hinv as (Hp & Hs & Ha). repeat split; try done.
  destruct st as [queue pool live next]. simpl in *. subst.
  unfold Gui.process_queue, Gui.start_phase. simpl.
  specialize (Hstart queue).
  destruct (Gui.start_threads max_threads queue [] ∅ 0); [|done].
  by subst.
Qed.

Lemma no_capacity_no_worker_witness :
  Gui.process_queue (Effects.VInt (-1))
    (Gui.Sched [("decrypt", "a.doc")] [] ∅ 0)
  = Gui.Sched [("decrypt", "a.doc")] [] ∅ 0.
Proof.
  refine (proj2 (proj2 (proj2 (no_capacity_no_worker (Effects.VInt (-1))
            (Gui.Sched [("decrypt", "a.doc")] [] ∅ 0) eq_refl _)))).
  exact (puts_reachable (Effects.VInt (-1)) [("decrypt", "a.doc")]
           Gui.initial (Gui.reach_initial _)).
Defined.

(** ** The worker and the batch: failures, logging, what is enqueued *)

Section WorkerMore.
Import Effects Gui.
Context {W : Type}.

Ltac quiet_body2 :=
  intros;
  first [ apply log_quiet
        | apply file_size_of_quiet
        | apply bind_quiet; quiet_body2 ].

Ltac logs2 :=
  match goal with
  | |- context [guarded_log ?e ?b ?w] =>
      let Hq := fresh "Hq" in
      destruct (guarded_log_spec e b w ltac:(quiet_body2)) as (? & ? & -> & Hq)
  end.

Ltac run_worker2 :=
  unfold process_decrypt_task, decrypt_task_body, decrypt_task_handler,
    verify, try_except, bind, call, emit, ret, trace_of, outcome_of in *;
  simpl in *.

Ltac step2 :=
  match goal with
  | H : ?x = _ |- context [?x] => rewrite H
  | |- context [get_detection_result ?e ?p ?w] =>
      destruct (get_detection_result e p w) as [? [?|?]] eqn:?
  | |- context [get_settings ?e ?w] =>
      destruct (get_settings e w) as [? [?|?]] eqn:?
  | |- context [process_encrypted_file ?e ?p ?g ?w] =>
      destruct (process_encrypted_file e p g w) as [? [?|?]] eqn:?
  | |- context [truthy ?d] => destruct (truthy d) eqn:?
  | |- context [Z.eqb ?a ?b] => destruct (Z.eqb a b) eqn:?
  | _ => logs2
  end; simpl in *.

(** The branch of a Driver that gives no path, in full. *)
Lemma worker_driver_failed (env : Env W) path w w1 r w2 settings w3 d :
  get_detection_result env path w = (w1, Ok r) →
  status_code r = 1 →
  get_settings env w1 = (w2, Ok settings) →
  process_encrypted_file env path (settings !! "wps_path") w2 = (w3, Ok d) →
  truthy d = None →
  ∃ w' logs,
    process_decrypt_task env path w =
      (w',
       [EvClassify path; EvDriver path (settings !! "wps_path");
        EvAfter (CbFailed path)] ++ logs,
       Ok tt)
    ∧ quiet logs.
Proof.
  intros Hd Hs Hg Hp Ht. run_worker2. rewrite Hd. simpl.
  rewrite Hs. simpl. rewrite Hg. simpl. rewrite Hp. simpl.
  rewrite Ht. simpl. logs2. simpl. eauto.
Qed.

(** What the worker signals does not depend on the operation log. *)
Lemma worker_signals_without_log (env1 env2 : Env W) path w :
  get_detection_result env1 = get_detection_result env2 →
  process_encrypted_file env1 = process_encrypted_file env2 →
  get_settings env1 = get_settings env2 →
  signals (trace_of (process_decrypt_task env1 path w)) =
  signals (trace_of (process_decrypt_task env2 path w)).
Proof.
  intros Hd Hp Hg. run_worker2. rewrite <- Hd, <- Hp, <- Hg.
  repeat step2;
    unfold signals; simpl; rewrite ?List.filter_app; simpl;
    fold (signals); rewrite ?quiet_signals by assumption; reflexivity.
Qed.
End WorkerMore.

Lemma path_driver_failed {W : Type} (env : Compat.Env W)
    path w w1 r w2 settings w3 d :
  Compat.path_exists env path w = true →
  Compat.check_file_encryption_with_feedback env path w = (w1, Effects.Ok r) →
  Effects.status_code r = 1 →
  Compat.get_settings env w1 = (w2, Effects.Ok settings) →
  Compat.open_and_process_file env path (settings !! "wps_path") w2 =
    (w3, Effects.Ok d) →
  Compat.truthy d = None →
  Compat.process_path env path w =
    (w3,
     [Compat.EvClassify path;
      Compat.EvPrint (Compat.PStatus (Effects.status r) path);
      Compat.EvLogInfo (Effects.status r +:+ ": " +:+ path);
      Compat.EvPrint (Compat.PTrying path);
      Compat.EvLogInfo ("尝试解密: " +:+ path);
      Compat.EvDriver path (settings !! "wps_path");
      Compat.EvPrint Compat.PDecryptFailed;
      Compat.EvLogError ("解密失败: " +:+ path)],
     Effects.Ok tt).
Proof.
  intros He Hd Hs Hg Hp Ht.
  unfold Compat.process_path, Compat.print, Effects.bind, Effects.call,
    Effects.ask, Effects.emit. simpl.
  rewrite He. simpl. rewrite Hd. simpl. rewrite Hs. simpl.
  rewrite Hg. simpl. rewrite Hp. simpl. rewrite Ht. reflexivity.
Qed.

(** X6.  A Driver that returns no path, or the empty string, counts as a
    failed decryption: the worker reports the failure with the error tag and
    does not classify anything again; the legacy loop prints the failure
    line and stops handling the path there. *)
Theorem driver_failure_is_reported {W : Type}
    (env : Gui.Env W) (cenv : Compat.Env W) (path : string) (w : W)
    (w1 : W) (r : Effects.DetectionResult) (w2 : W)
    (settings : gmap string Effects.value) (w3 : W) (d : option string) :
  (Gui.get_detection_result env path w = (w1, Effects.Ok r) →
   Effects.status_code r = 1 →
   Gui.get_settings env w1 = (w2, Effects.Ok settings) →
   Gui.process_encrypted_file env path (settings !! "wps_path") w2 =
     (w3, Effects.Ok d) →
   d = None ∨ d = Some "" →
   let t := Effects.trace_of (Gui.process_decrypt_task env path w) in
   Gui.signals t =
     [Gui.EvClassify path; Gui.EvDriver path (settings !! "wps_path");
      Gui.EvAfter (Gui.CbFailed path)]
   ∧ Gui.verify_state_of t = Gui.NotApplicable
   ∧ ∀ exc, Gui.rendered exc t =
       [{| Gui.message := "解密失败: " +:+ path; Gui.tag := "error" |}])
  ∧ (Compat.path_exists cenv path w = true →
     Compat.check_file_encryption_with_feedback cenv path w =
       (w1, Effects.Ok r) →
     Effects.status_code r = 1 →
     Compat.get_settings cenv w1 = (w2, Effects.Ok settings) →
     Compat.open_and_process_file cenv path (settings !! "wps_path") w2 =
       (w3, Effects.Ok d) →
     d = None ∨ d = Some "" →
     let t := Effects.trace_of (Compat.process_path cenv path w) in
     Compat.outcomes t = [Compat.DecryptionFailed]
     ∧ last t = Some (Compat.EvLogError ("解密失败: " +:+ path))).
Proof.
  split.
  - intros Hd Hs Hg Hp Hnone t.
    assert (Ht : Gui.truthy d = None) by (by destruct Hnone as [->| ->]).
    destruct (worker_driver_failed env path w w1 r w2 settings w3 d
                Hd Hs Hg Hp Ht) as (w' & logs & Hrun & Hq).
    subst t. rewrite Hrun. unfold Effects.trace_of. cbn [fst snd].
    split; [|split].
    + rewrite signals_app, (quiet_signals logs Hq). reflexivity.
    + by rewrite (verify_state_quiet _ _ Hq).
    + intros exc. by rewrite rendered_app, (quiet_rendered exc logs Hq).
  - intros He Hd Hs Hg Hp Hnone t.
    assert (Ht : Compat.truthy d = None) by (by destruct Hnone as [->| ->]).
    subst t. rewrite (path_driver_failed cenv path w w1 r w2 settings w3 d
                        He Hd Hs Hg Hp Ht).
    split; reflexivity.
Qed.

Lemma driver_failure_is_reported_witness :
  Gui.verify_state_of
    (Effects.trace_of
       (Gui.process_decrypt_task
          {| Gui.get_detection_result := Demo.classify;
             Gui.process_encrypted_file := λ _ _ w, (w, Effects.Ok (Some ""));
             Gui.get_settings := λ w, (w, Effects.Ok Demo.settings);
             Gui.getsize := λ _ w, (w, Effects.Ok 10);
             Gui.get_logger_manager := λ w, (w, Effects.Ok tt);
             Gui.log_entry_call := λ _ w, (w, Effects.Ok tt) |}
          "secret.doc" tt)) = Gui.NotApplicable
  ∧ Compat.outcomes
      (Effects.trace_of
         (Compat.process_path
            {| Compat.path_exists := λ _ _, true;
               Compat.check_file_encryption_with_feedback := Demo.classify;
               Compat.open_and_process_file := λ _ _ w, (w, Effects.Ok None);
               Compat.get_config_manager := λ w, (w, Effects.Ok tt);
               Compat.get_logger := λ w, (w, Effects.Ok tt);
               Compat.get_settings := λ w, (w, Effects.Ok Demo.settings);
               Compat.run_cli := λ w, (w, Effects.Ok tt);
               Compat.run_gui := λ w, (w, Effects.Ok tt) |}
            "secret.doc" tt)) = [Compat.DecryptionFailed].
Proof.
  split.
  - destruct (driver_failure_is_reported
                {| Gui.get_detection_result := Demo.classify;
                   Gui.process_encrypted_file :=
                     λ _ _ w, (w, Effects.Ok (Some ""));
                   Gui.get_settings := λ w, (w, Effects.Ok Demo.settings);
                   Gui.getsize := λ _ w, (w, Effects.Ok 10);
                   Gui.get_logger_manager := λ w, (w, Effects.Ok tt);
                   Gui.log_entry_call := λ _ w, (w, Effects.Ok tt) |}
                Demo.compat_env
                "secret.doc" tt tt (Demo.detect "secret.doc") tt Demo.settings
                tt (Some "")) as [Hgui _].
    exact (proj1 (proj2 (Hgui eq_refl eq_refl eq_refl eq_refl
                           (or_intror eq_refl)))).
  - destruct (driver_failure_is_reported Demo.gui_env
                {| Compat.path_exists := λ _ _, true;
                   Compat.check_file_encryption_with_feedback := Demo.classify;
                   Compat.open_and_process_file :=
                     λ _ _ w, (w, Effects.Ok None);
                   Compat.get_config_manager := λ w, (w, Effects.Ok tt);
                   Compat.get_logger := λ w, (w, Effects.Ok tt);
                   Compat.get_settings := λ w, (w, Effects.Ok Demo.settings);
                   Compat.run_cli := λ w, (w, Effects.Ok tt);
                   Compat.run_gui := λ w, (w, Effects.Ok tt) |}
                "secret.doc" tt tt (Demo.detect "secret.doc") tt Demo.settings
                tt None) as [_ Hcompat].
    exact (proj1 (Hcompat eq_refl eq_refl eq_refl eq_refl eq_refl
                    (or_introl eq_refl))).
Defined.



(** X8.  What the worker signals (classifications, Driver call, scheduled
    reports) does not depend on the operation log: two installations that
    differ only in [getsize] and in the logger give the same signals, so a
    log that cannot be written changes no outcome. *)
Theorem logging_never_changes_the_outcome {W : Type}
    (env1 env2 : Gui.Env W) (path : string) (w : W) :
  Gui.get_detection_result env1 = Gui.get_detection_result env2 →
  Gui.process_encrypted_file env1 = Gui.process_encrypted_file env2 →
  Gui.get_settings env1 = Gui.get_settings env2 →
  Gui.signals (Effects.trace_of (Gui.process_decrypt_task env1 path w)) =
  Gui.signals (Effects.trace_of (Gui.process_decrypt_task env2 path w))
  ∧ Effects.outcome_of (Gui.process_decrypt_task env1 path w) =
    Effects.outcome_of (Gui.process_decrypt_task env2 path w).
Proof.
  intros Hd Hp Hg. split; [by apply worker_signals_without_log|].
  by rewrite !worker_never_raises.
Qed.

Lemma logging_never_changes_the_outcome_witness :
  Gui.signals
    (Effects.trace_of
       (Gui.process_decrypt_task Demo.gui_env "secret.doc" tt)) =
  Gui.signals
    (Effects.trace_of
       (Gui.process_decrypt_task Samples.gui_env_without_log "secret.doc" tt)).
Proof.
  exact (proj1 (logging_never_changes_the_outcome Demo.gui_env
                  Samples.gui_env_without_log "secret.doc" tt
                  eq_refl eq_refl eq_refl)).
Defined.

Lemma decrypt_file_directory {W : Type} (fs : Gui.FsEnv W) (path : string)
    (w : W) (name : string) (entries : list Gui.node) :
  path ≠ "" →
  Gui.lookup_node fs path w = Some (Gui.Dir name entries) →
  Gui.decrypt_file fs path w =
    (w, [Gui.EvClearResults; Gui.EvAddResult ("正在解密: " +:+ path) "debug"] ++
        (Gui.EvPut <$> (pair "decrypt" <$>
           Gui.walked_files fs (Gui.walk fs path (Gui.Dir name entries)))),
     Effects.Ok tt).
Proof.
  intros Hne Hdir. unfold Gui.decrypt_file.
  apply String.eqb_neq in Hne. rewrite Hne.
  unfold Effects.bind, Effects.emit, Effects.ask. rewrite Hdir.
  rewrite for_each_walk. reflexivity.
Qed.

Lemma decrypt_file_single {W : Type} (fs : Gui.FsEnv W) (path : string)
    (w : W) :
  path ≠ "" →
  (∀ name entries,
     Gui.lookup_node fs path w ≠ Some (Gui.Dir name entries)) →
  Gui.decrypt_file fs path w =
    (w, [Gui.EvClearResults; Gui.EvAddResult ("正在解密: " +:+ path) "debug";
         Gui.EvPut ("decrypt", path)],
     Effects.Ok tt).
Proof.
  intros Hne Hnd. unfold Gui.decrypt_file.
  apply String.eqb_neq in Hne. rewrite Hne.
  unfold Effects.bind, Effects.emit, Effects.ask, Gui.put.
  destruct (Gui.lookup_node fs path w) as [[n|n es]|] eqn:Hl; try reflexivity.
  by destruct (Hnd n es).
Qed.

(** X9.  What [decrypt_file] puts on the queue: only tasks of type
    decrypt; for a path that is not a directory, an existing file or not,
    the one task of that path; and nothing exactly when the path is empty or
    is a directory with no file below it. *)
Theorem what_decrypt_file_enqueues {W : Type} (fs : Gui.FsEnv W)
    (path : string) (w : W) :
  let tasks := Gui.enqueued (Effects.trace_of (Gui.decrypt_file fs path w)) in
  Forall (λ t, fst t = "decrypt") tasks
  ∧ (path ≠ "" →
     (∀ name entries,
        Gui.lookup_node fs path w ≠ Some (Gui.Dir name entries)) →
     tasks = [("decrypt", path)])
  ∧ (tasks = [] ↔
     path = "" ∨
     ∃ name entries,
       Gui.lookup_node fs path w = Some (Gui.Dir name entries)
       ∧ Gui.count_files (Gui.Dir name entries) = 0%nat).
Proof.
  intros tasks. subst tasks.
  destruct (decide (path = "")) as [->|Hne].
  { split; [constructor|]. split; [done|]. split; [by left|done]. }
  destruct (Gui.lookup_node fs path w) as [[n|n es]|] eqn:Hl.
  - rewrite (decrypt_file_single fs path w Hne) by (intros ??; congruence).
    split; [by repeat constructor|]. split; [done|].
    split; [done|]. intros [?|(? & ? & ? & _)]; congruence.
  - rewrite (decrypt_file_directory fs path w n es Hne Hl).
    unfold Effects.trace_of. cbn [fst snd]. unfold Gui.enqueued.
    rewrite omap_app. cbn [omap list_omap app].
    fold (Gui.enqueued (Gui.EvPut <$> (pair "decrypt" <$>
            Gui.walked_files fs (Gui.walk fs path (Gui.Dir n es))))).
    rewrite enqueued_puts.
    split; [|split].
    + apply Forall_fmap. by apply Forall_true.
    + intros _ Hnd. by destruct (Hnd n es).
    + assert (Hlen : length (pair "decrypt" <$>
                 Gui.walked_files fs (Gui.walk fs path (Gui.Dir n es)))
               = Gui.count_files (Gui.Dir n es)).
      { rewrite length_fmap.
        rewrite (Permutation_length (walk_lists_files fs (Gui.Dir n es) path)).
        by apply files_below_count. }
      split.
      * intros Hnil. right. exists n, es. split; [done|].
        by rewrite <- Hlen, Hnil.
      * intros [?|(n' & es' & Heq & Hc)]; [done|]. simplify_eq.
        rewrite Hc in Hlen. by apply nil_length_inv.
  - rewrite (decrypt_file_single fs path w Hne) by (intros ??; congruence).
    split; [by repeat constructor|]. split; [done|].
    split; [done|]. intros [?|(? & ? & ? & _)]; congruence.
Qed.

Lemma what_decrypt_file_enqueues_witness :
  Gui.enqueued
    (Effects.trace_of (Gui.decrypt_file Demo.fs_env "gone.doc" tt))
  = [("decrypt", "gone.doc")].
Proof.
  refine (proj1 (proj2 (what_decrypt_file_enqueues Demo.fs_env "gone.doc" tt))
            _ _).
  - discriminate.
  - intros name entries. discriminate.
Defined.

(** ** The entry point: [main] *)

Section EntryFacts.
Import Effects Compat Entry.
Context {W : Type} (env : Env W).

Lemma try_finally_emit {A} (m : Effects.M W event A) (ev : event) (w : W) :
  try_finally m (emit ev) w =
    (world_of (m w), trace_of (m w) ++ [ev], outcome_of (m w)).
Proof.
  unfold try_finally, emit, world_of, trace_of, outcome_of.
  by destruct (m w) as [[w1 t1] r].
Qed.

(** The error handler prints the error first, handles no path, and raises
    only if reading the settings does. *)
Lemma on_error_spec have_config have_logger e w :
  ∃ w1 t r,
    on_error env have_config have_logger e w =
      (w1, EvPrint (PError (str e)) :: t, r)
    ∧ Forall (λ ev, pathless ev = true) t
    ∧ (returns (get_settings env) → r = Ok tt).
Proof.
  unfold on_error, print, bind, emit, call, ret.
  destruct have_logger, have_config; simpl;
    try (destruct (get_settings env w) as [w1 [st|e']] eqn:Hs; simpl;
         try destruct (truth (default (VBool false) (st !! "debug")))); simpl;
    eexists _, _, _; (split; [reflexivity|]);
    (split; [repeat constructor|]); try done;
    intros Hr; destruct (Hr w) as (? & ? & Hr'); congruence.
Qed.

Lemma main_with_logger argv w w1 w2 :
  get_config_manager env w = (w1, Ok tt) →
  get_logger env w1 = (w2, Ok tt) →
  main env argv w =
    try_finally (try_except (dispatch env argv) (on_error env true true))
      (emit (EvLogInfo "程序结束")) w2.
Proof.
  intros Hc Hl. unfold main.
  unfold bind at 1. unfold try_except at 1, bind at 1, call at 1, ret at 1.
  rewrite Hc. cbn beta iota.
  unfold bind at 1. unfold try_except at 1, bind at 1, call at 1, ret at 1.
  rewrite Hl. cbn beta iota.
  destruct (try_finally _ _ w2) as [[w3 t3] r3]. reflexivity.
Qed.
End EntryFacts.

Section EntryFacts2.
Import Effects Compat Entry.
Context {W : Type} (env : Env W).

Lemma dispatch_not_legacy argv w :
  match argv with
  | _ :: first :: _ => legacy first = false
  | _ => True
  end →
  Forall (λ ev, pathless ev = true) (trace_of (dispatch env argv w)).
Proof.
  intros Hmode. unfold dispatch, print, bind, emit, call, trace_of.
  destruct argv as [|prog [|first rest]]; cbn beta iota.
  - destruct (run_gui env w) as [w1 r]; simpl.
    destruct r; repeat constructor.
  - destruct (run_gui env w) as [w1 r]; simpl.
    destruct r; repeat constructor.
  - destruct (among (lower first) ["-h"; "--help"; "help"]) eqn:E1;
      [repeat constructor|].
    destruct (among (lower first) ["-v"; "--version"; "version"]) eqn:E2;
      [repeat constructor|].
    destruct (among (lower first) ["check"; "unlock"; "scan"; "batch-unlock"])
      eqn:E3.
    + destruct (run_cli env w) as [w1 r]; simpl.
      destruct r; repeat constructor.
    + unfold legacy in Hmode. rewrite E1, E2, E3 in Hmode. discriminate.
Qed.

Lemma try_except_on_error_pathless argv w :
  Forall (λ ev, pathless ev = true) (trace_of (dispatch env argv w)) →
  Forall (λ ev, pathless ev = true)
    (trace_of (try_except (dispatch env argv) (on_error env true true) w)).
Proof.
  unfold try_except, trace_of.
  destruct (dispatch env argv w) as [[w1 t1] [[]|e]]; simpl; [done|].
  intros Ht. destruct (on_error_spec env true true e w1)
    as (w2 & t2 & r & -> & Ht2 & _). simpl.
  apply Forall_app. split; [done|]. by constructor.
Qed.

Lemma path_raise_no_outcome path w w1 t e :
  process_path env path w = (w1, t, Raise e) → outcomes t = [].
Proof.
  unfold process_path, print, bind, call, ask, emit. simpl.
  destruct (path_exists env path w); simpl; [|intros; simplify_eq].
  destruct (check_file_encryption_with_feedback env path w)
    as [w2 [r|e']]; simpl; [|by intros; simplify_eq].
  destruct (status_code r =? 1); simpl.
  2:{ destruct (status_code r =? 0); simpl; intros; simplify_eq. }
  destruct (get_settings env w2) as [w3 [st|e']]; simpl;
    [|by intros; simplify_eq].
  destruct (open_and_process_file env path (st !! "wps_path") w3)
    as [w4 [d|e']]; simpl; [|by intros; simplify_eq].
  destruct (truthy d) as [dpath|]; simpl; [|intros; simplify_eq].
  destruct (check_file_encryption_with_feedback env dpath w4)
    as [w5 [v|e']]; simpl; [|by intros; simplify_eq].
  destruct (status_code v =? 0); simpl; intros; simplify_eq.
Qed.

Lemma loop_aborts (pre : list string) : ∀ p post w w1 t1 w2 t2 e,
  for_each pre (process_path env) w = (w1, t1, Ok tt) →
  process_path env p w1 = (w2, t2, Raise e) →
  for_each (pre ++ p :: post) (process_path env) w = (w2, t1 ++ t2, Raise e).
Proof.
  induction pre as [|q pre IH]; intros p post w w1 t1 w2 t2 e Hpre Hp.
  - simpl in *. unfold ret in Hpre. simplify_eq. unfold bind. by rewrite Hp.
  - simpl in *. unfold bind in *.
    destruct (process_path env q w) as [[wq tq] [[]|eq]]; [|simplify_eq].
    destruct (for_each pre (process_path env) wq) as [[wr tr] rr] eqn:Hrest.
    simplify_eq.
    rewrite (IH p post wq w1 tr w2 t2 e Hrest Hp). by rewrite app_assoc.
Qed.
End EntryFacts2.

(** X10.  Whenever configuration manager and logger are there, the last
    thing [main] does is log the end of the program: after help or version,
    after the command line or the window, after the legacy loop, and also
    when something raised on the way, even in the error handler. *)
Theorem main_always_logs_the_end {W : Type} (env : Compat.Env W)
    (argv : list string) (w w1 w2 : W) :
  Compat.get_config_manager env w = (w1, Effects.Ok tt) →
  Compat.get_logger env w1 = (w2, Effects.Ok tt) →
  last (Effects.trace_of (Compat.main env argv w)) =
    Some (Compat.EvLogInfo "程序结束").
Proof.
  intros Hc Hl. rewrite (main_with_logger env argv w w1 w2 Hc Hl).
  rewrite try_finally_emit. unfold Effects.trace_of at 1. cbn [fst snd].
  apply last_snoc.
Qed.

Lemma main_always_logs_the_end_witness :
  last (Effects.trace_of
          (Compat.main Entry.raising_env ["main.py"; "locked.doc"] tt)) =
    Some (Compat.EvLogInfo "程序结束").
Proof.
  exact (main_always_logs_the_end Entry.raising_env
           ["main.py"; "locked.doc"] tt tt tt eq_refl eq_refl).
Defined.



Lemma pathless_outcomes (t : list Compat.event) :
  Forall (λ ev, Entry.pathless ev = true) t → Compat.outcomes t = [].
Proof.
  induction 1 as [|ev t Hev _ IH]; [reflexivity|].
  unfold Compat.outcomes in *. destruct ev as [[]| | | | | | | |];
    try discriminate; simpl; exact IH.
Qed.

(** X12.  [main] handles paths only in the legacy mode.  With no
    argument, or with a first argument that is a reserved word in any letter
    case, [main] itself classifies nothing, calls no Driver and reports no
    outcome, whatever the other arguments are. *)
Theorem paths_are_handled_only_in_legacy_mode {W : Type}
    (env : Compat.Env W) (argv : list string) (w : W) :
  match argv with
  | _ :: first :: _ => Entry.legacy first = false
  | _ => True
  end →
  Forall (λ ev, Entry.pathless ev = true)
    (Effects.trace_of (Compat.main env argv w))
  ∧ Compat.outcomes (Effects.trace_of (Compat.main env argv w)) = [].
Proof.
  intros Hmode.
  assert (H : Forall (λ ev, Entry.pathless ev = true)
                (Effects.trace_of (Compat.main env argv w))).
  { destruct (Compat.get_config_manager env w) as [w1 [[]|e]] eqn:Hc.
    2:{ unfold Compat.main, Effects.bind at 1.
        unfold Effects.try_except at 1, Effects.bind at 1, Effects.call at 1,
          Effects.ret at 1 2.
        rewrite Hc. cbn beta iota.
        destruct (on_error_spec env false false e w1)
          as (w2 & t & r & -> & Ht & _).
        unfold Effects.trace_of. simpl. by constructor. }
    destruct (Compat.get_logger env w1) as [w2 [[]|e]] eqn:Hl.
    2:{ unfold Compat.main, Effects.bind at 1.
        unfold Effects.try_except at 1, Effects.bind at 1, Effects.call at 1,
          Effects.ret at 1 2.
        rewrite Hc. cbn beta iota.
        unfold Effects.bind at 1.
        unfold Effects.try_except at 1, Effects.bind at 1, Effects.call at 1,
          Effects.ret at 1 2.
        rewrite Hl. cbn beta iota.
        destruct (on_error_spec env true false e w2)
          as (w3 & t & r & -> & Ht & _).
        unfold Effects.trace_of. simpl. by constructor. }
    rewrite (main_with_logger env argv w w1 w2 Hc Hl), try_finally_emit.
    unfold Effects.trace_of at 1. cbn [fst snd].
    apply Forall_app. split; [|by repeat constructor].
    apply try_except_on_error_pathless. by apply dispatch_not_legacy. }
  split; [exact H|]. by apply pathless_outcomes.
Qed.

Lemma paths_are_handled_only_in_legacy_mode_witness :
  Compat.outcomes
    (Effects.trace_of
       (Compat.main Demo.compat_env ["main.py"; "--HELP"; "secret.doc"] tt))
  = [].
Proof.
  exact (proj2 (paths_are_handled_only_in_legacy_mode Demo.compat_env
                  ["main.py"; "--HELP"; "secret.doc"] tt eq_refl)).
Defined.

(** X13.  An exception ends the legacy run.  When handling a path
    raises (classifier, settings or Driver), the loop stops there: [main]
    prints the error and logs the end, the paths before it keep their
    reports, the path itself gets no outcome and the paths after it are not
    looked at. *)
Theorem exception_ends_the_legacy_run {W : Type} (env : Compat.Env W)
    (prog first : string) (rest pre : list string) (p : string)
    (post : list string) (w w1 w2 w3 w4 : W)
    (t1 t2 : list Compat.event) (e : Effects.exn) :
  Compat.get_config_manager env w = (w1, Effects.Ok tt) →
  Compat.get_logger env w1 = (w2, Effects.Ok tt) →
  Entry.legacy first = true →
  first :: rest = pre ++ p :: post →
  Effects.for_each pre (Compat.process_path env) w2 = (w3, t1, Effects.Ok tt) →
  Compat.process_path env p w3 = (w4, t2, Effects.Raise e) →
  let t := Effects.trace_of (Compat.main env (prog :: first :: rest) w) in
  (∃ handler,
     t = [Compat.EvLogInfo "程序启动";
          Compat.EvLogInfo "使用兼容模式处理文件"] ++ t1 ++ t2 ++
         Compat.EvPrint (Compat.PError (Effects.str e)) :: handler ++
         [Compat.EvLogInfo "程序结束"]
     ∧ Forall (λ ev, Entry.pathless ev = true) handler)
  ∧ Compat.outcomes t = Compat.outcomes t1.
Proof.
  intros Hc Hl Hmode Hpaths Hpre Hp t.
  assert (Hrun : ∃ handler,
            t = [Compat.EvLogInfo "程序启动";
                 Compat.EvLogInfo "使用兼容模式处理文件"] ++ t1 ++ t2 ++
                Compat.EvPrint (Compat.PError (Effects.str e)) :: handler ++
                [Compat.EvLogInfo "程序结束"]
            ∧ Forall (λ ev, Entry.pathless ev = true) handler).
  { subst t. rewrite (main_with_logger env _ w w1 w2 Hc Hl), try_finally_emit.
    unfold Effects.trace_of at 1. cbn [fst snd].
    unfold Entry.legacy in Hmode.
    apply andb_true_iff in Hmode as [Hmode H3].
    apply andb_true_iff in Hmode as [H1 H2].
    apply negb_true_iff in H1, H2, H3.
    unfold Effects.try_except, Compat.dispatch.
    rewrite H1, H2, H3.
    unfold Effects.bind at 1, Effects.emit at 1.
    unfold Effects.bind at 1, Effects.emit at 1.
    rewrite Hpaths, (loop_aborts env pre p post w2 w3 t1 w4 t2 e Hpre Hp).
    destruct (on_error_spec env true true e w4)
      as (w5 & th & r & -> & Hth & _).
    unfold Effects.trace_of. cbn [fst snd].
    exists th. split; [|exact Hth].
    simpl. by rewrite <- !app_assoc. }
  split; [exact Hrun|].
  destruct Hrun as (handler & -> & Hh).
  rewrite !outcomes_app.
  rewrite (path_raise_no_outcome env p w3 w4 t2 e Hp).
  change (Compat.outcomes
            (Compat.EvPrint (Compat.PError (Effects.str e))
               :: handler ++ [Compat.EvLogInfo "程序结束"]))
    with (Compat.outcomes (handler ++ [Compat.EvLogInfo "程序结束"])).
  rewrite outcomes_app, (pathless_outcomes handler Hh). simpl.
  by rewrite !app_nil_r.
Qed.

Lemma exception_ends_the_legacy_run_witness :
  Compat.outcomes
    (Effects.trace_of
       (Compat.main Entry.raising_env
          ["main.py"; "plain.txt"; "locked.doc"; "secret.doc"] tt))
  = [Compat.UnencryptedSkipped].
Proof.
  exact (proj2 (exception_ends_the_legacy_run Entry.raising_env
                  "main.py" "plain.txt" ["locked.doc"; "secret.doc"]
                  ["plain.txt"] "locked.doc" ["secret.doc"]
                  tt tt tt tt tt _ _ Demo.PermissionError
                  eq_refl eq_refl eq_refl eq_refl eq_refl eq_refl)).
Defined.

(** ** The version order *)

Section VersionMore.
Import Version.

Lemma compare_loop_range (xs ys : list Z) n : ∀ i r,
  compare_loop xs ys i n = Some r → r = -1 ∨ r = 0 ∨ r = 1.
Proof.
  induction n as [|n IH]; intros i r; simpl.
  - intros [= <-]. auto.
  - destruct (xs !! i) as [a|], (ys !! i) as [b|]; try discriminate.
    destruct (a >? b); [intros [= <-]; auto|].
    destruct (a <? b); [intros [= <-]; auto|]. apply IH.
Qed.

(** The code's answer on parsed components, at the length it pads to. *)
Lemma compare_body_parsed a b xs ys :
  parts a = Some xs → parts b = Some ys →
  compare_body a b =
    Some (first_unequal
            (zip (pad (length xs `max` length ys) xs)
                 (pad (length xs `max` length ys) ys))).
Proof.
  intros Ha Hb. unfold compare_body. rewrite Ha, Hb. simpl.
  fold (pad (length xs `max` length ys) xs).
  fold (pad (length xs `max` length ys) ys).
  rewrite (compare_loop_drop _ _ _ 0%nat);
    [| rewrite pad_length; lia | rewrite pad_length; lia].
  reflexivity.
Qed.

Lemma first_unequal_zeros (l : list (Z * Z)) (k : nat) :
  first_unequal (l ++ zip (replicate k 0) (replicate k 0)) = first_unequal l.
Proof.
  induction l as [|[a b] l IH]; simpl.
  - induction k as [|k IHk]; [reflexivity|].
    simpl. rewrite first_unequal_cons. simpl. exact IHk.
  - rewrite !first_unequal_cons, IH. reflexivity.
Qed.

Lemma pad_more (m n : nat) (xs : list Z) :
  (length xs ≤ n)%nat → (n ≤ m)%nat →
  pad m xs = pad n xs ++ replicate (m - n) 0.
Proof.
  intros H1 H2. unfold pad. rewrite <- app_assoc, <- replicate_add.
  do 2 f_equal. lia.
Qed.

(** Padding further than the longer list changes nothing. *)
Lemma first_unequal_pad (m : nat) (xs ys : list Z) :
  (length xs `max` length ys ≤ m)%nat →
  first_unequal (zip (pad m xs) (pad m ys)) =
  first_unequal (zip (pad (length xs `max` length ys) xs)
                     (pad (length xs `max` length ys) ys)).
Proof.
  intros Hm. set (n := (length xs `max` length ys)%nat) in *.
  rewrite (pad_more m n xs), (pad_more m n ys) by lia.
  rewrite zip_with_app by (rewrite !pad_length; lia).
  apply first_unequal_zeros.
Qed.
End VersionMore.

Section VersionMore2.
Import Version.

Lemma split_nonempty sep s : split sep s ≠ [].
Proof.
  destruct s as [|c s]; simpl; [done|].
  destruct (Ascii.eqb c sep); [done|]. by destruct (split sep s).
Qed.

Lemma split_dot_zero (a : string) :
  split "." (a +:+ ".0") = split "." a ++ ["0"].
Proof.
  induction a as [|c a IH]; [reflexivity|].
  change (String c a +:+ ".0") with (String c (a +:+ ".0")).
  cbn [split]. rewrite IH.
  destruct (Ascii.eqb c "."); [reflexivity|].
  pose proof (split_nonempty "." a) as Hne.
  by destruct (split "." a).
Qed.

Lemma parts_dot_zero (a : string) :
  parts (a +:+ ".0") = (λ xs, xs ++ [0]) <$> parts a.
Proof.
  unfold parts. rewrite split_dot_zero.
  destruct (mapM py_int (split "." a)) as [xs|] eqn:Hxs; simpl.
  - apply mapM_Some. apply mapM_Some in Hxs.
    apply Forall2_app; [exact Hxs|]. by repeat constructor.
  - apply mapM_None. apply mapM_None in Hxs.
    apply Exists_app. by left.
Qed.

Lemma pad_snoc_zero (m : nat) (xs : list Z) :
  (S (length xs) ≤ m)%nat → pad m (xs ++ [0]) = pad m xs.
Proof.
  intros Hm. unfold pad. rewrite length_app, <- app_assoc. simpl.
  replace (m - length xs)%nat with (S (m - (length xs + 1)))%nat by lia.
  reflexivity.
Qed.

Lemma compare_body_dot_zero (a b : string) :
  compare_body (a +:+ ".0") b = compare_body a b.
Proof.
  destruct (parts a) as [xs|] eqn:Ha.
  2:{ unfold compare_body. by rewrite parts_dot_zero, Ha. }
  destruct (parts b) as [ys|] eqn:Hb.
  2:{ unfold compare_body. by rewrite parts_dot_zero, Ha, Hb. }
  rewrite (compare_body_parsed a b xs ys Ha Hb).
  rewrite (compare_body_parsed (a +:+ ".0") b (xs ++ [0]) ys)
    by (by rewrite ?parts_dot_zero, ?Ha).
  f_equal.
  rewrite pad_snoc_zero by (rewrite length_app; simpl; lia).
  rewrite <- (first_unequal_pad (length (xs ++ [0]) `max` length ys) xs ys)
    by (rewrite length_app; simpl; lia).
  reflexivity.
Qed.

(** On lists of one length the first unequal pair gives an order. *)
Lemma first_unequal_trans (l : list Z) : ∀ k m,
  length l = length k → length k = length m →
  (first_unequal (zip l k) ≤ 0 → first_unequal (zip k m) ≤ 0 →
   first_unequal (zip l m) ≤ 0)
  ∧ (first_unequal (zip l k) = 0 →
     first_unequal (zip l m) = first_unequal (zip k m)).
Proof.
  induction l as [|x l IH]; intros [|y k] [|z m] H1 H2; try discriminate;
    [done|].
  simpl in H1, H2. injection H1 as H1. injection H2 as H2.
  destruct (IH k m H1 H2) as [IHle IHeq].
  simpl. rewrite !first_unequal_cons, !Z.gtb_ltb.
  destruct (Z.ltb_spec y x), (Z.ltb_spec x y), (Z.ltb_spec z y),
    (Z.ltb_spec y z), (Z.ltb_spec z x), (Z.ltb_spec x z);
    try lia; split; intros; try lia; auto.
Qed.
End VersionMore2.

Section VersionMore3.
Import Version.

Lemma compare_body_swap_dot_zero (a b : string) :
  compare_body a (b +:+ ".0") = compare_body a b.
Proof.
  destruct (parts a) as [xs|] eqn:Ha.
  2:{ unfold compare_body. by rewrite Ha. }
  destruct (parts b) as [ys|] eqn:Hb.
  2:{ unfold compare_body. by rewrite parts_dot_zero, Ha, Hb. }
  rewrite (compare_body_parsed a b xs ys Ha Hb).
  rewrite (compare_body_parsed a (b +:+ ".0") xs (ys ++ [0]))
    by (by rewrite ?parts_dot_zero, ?Hb).
  f_equal.
  rewrite pad_snoc_zero by (rewrite length_app; simpl; lia).
  rewrite <- (first_unequal_pad (length xs `max` length (ys ++ [0])) xs ys)
    by (rewrite length_app; simpl; lia).
  reflexivity.
Qed.

Lemma compare_versions_parsed a b xs ys m :
  parts a = Some xs → parts b = Some ys →
  (length xs `max` length ys ≤ m)%nat →
  _compare_versions a b = first_unequal (zip (pad m xs) (pad m ys)).
Proof.
  intros Ha Hb Hm. unfold _compare_versions.
  rewrite (compare_body_parsed a b xs ys Ha Hb). simpl.
  by rewrite (first_unequal_pad m xs ys Hm).
Qed.
End VersionMore3.

(** X14. A trailing [.0] component never changes the comparison, on either
    side and for every pair of strings, parseable or not. *)
Theorem trailing_zero_component_is_ignored (a b : string) :
  Version._compare_versions (a +:+ ".0") b = Version._compare_versions a b
  ∧ Version._compare_versions a (b +:+ ".0") = Version._compare_versions a b.
Proof.
  unfold Version._compare_versions.
  by rewrite compare_body_dot_zero, compare_body_swap_dot_zero.
Qed.

(** X15. On version strings whose components all parse, the comparison is
    an order: "not newer than" is transitive, and two versions that compare
    equal compare alike with every third one.  Without the parse condition
    this fails, since an unparseable string compares equal to everything. *)
Theorem parsed_versions_are_ordered :
  (∀ a b c xs ys zs,
     Version.parts a = Some xs → Version.parts b = Some ys →
     Version.parts c = Some zs →
     (Version._compare_versions a b ≤ 0 →
      Version._compare_versions b c ≤ 0 →
      Version._compare_versions a c ≤ 0)
     ∧ (Version._compare_versions a b = 0 →
        Version._compare_versions a c = Version._compare_versions b c))
  ∧ (∃ a b c,
       Version._compare_versions a b = 0
       ∧ Version._compare_versions b c = 0
       ∧ Version._compare_versions a c ≠ 0).
Proof.
  split.
  - intros a b c xs ys zs Ha Hb Hc.
    set (m := ((length xs `max` length ys) `max` length zs)%nat).
    rewrite (compare_versions_parsed a b xs ys m Ha Hb) by lia.
    rewrite (compare_versions_parsed b c ys zs m Hb Hc) by lia.
    rewrite (compare_versions_parsed a c xs zs m Ha Hc) by lia.
    apply first_unequal_trans; rewrite !pad_length; lia.
  - exists "5.1", "beta", "5.2". by vm_compute.
Qed.

Lemma parsed_versions_are_ordered_witness :
  Version._compare_versions "5.1" "5.1.0" = 0
  ∧ Version._compare_versions "5.1" "5.2" = Version._compare_versions "5.1.0" "5.2".
Proof.
  split; [reflexivity|].
  exact (proj2 (proj1 parsed_versions_are_ordered "5.1" "5.1.0" "5.2"
                  [5; 1] [5; 1; 0] [5; 2] eq_refl eq_refl eq_refl) eq_refl).
Defined.

(** ** The update check: what an answer leads to *)

Section ReleaseFacts.
Import Effects Update Releases.
Context {W : Type} (env : Env W).

Lemma dialogs_app t1 t2 : dialogs (t1 ++ t2) = dialogs t1 ++ dialogs t2.
Proof. apply omap_app. Qed.

Lemma quiet_log_dialogs bound operation target outcome detail w :
  ∃ w1 t,
    quiet_log env bound operation target outcome detail w = (w1, t, Ok tt)
    ∧ background t ∧ dialogs t = [].
Proof.
  unfold quiet_log, try_except, bind, emit, call, raise, ret.
  destruct bound; simpl.
  - destruct (log_operation env operation target outcome detail w)
      as [w1 [[]|e]]; simpl; eexists _, _; (split; [reflexivity|]);
      split; try reflexivity; repeat constructor.
  - eexists _, _. split; [reflexivity|]. split; [constructor|reflexivity].
Qed.

Lemma prelude_dialogs w w0 t0 bound :
  prelude env w = (w0, t0, Ok bound) → dialogs t0 = [].
Proof.
  unfold prelude, try_except, bind, emit, call, ret.
  destruct (get_logger_manager env w) as [w1 [[]|e]]; simpl.
  - destruct (quiet_log_dialogs true "版本检查" "online" "进行中" None w1)
      as (w2 & t & -> & _ & Ht). simpl. rewrite app_nil_r.
    intros [= <- <- <-]. exact Ht.
  - intros [= <- <- <-]. reflexivity.
Qed.

Lemma thread_after_prelude w w0 t0 bound :
  prelude env w = (w0, t0, Ok bound) →
  check_updates_thread env w =
    (let '(w1, t1, r) := try_except (fetch env bound) (handlers env bound) w0
     in (w1, t0 ++ t1, r)).
Proof.
  intros Hp. unfold check_updates_thread, bind. rewrite Hp. reflexivity.
Qed.
End ReleaseFacts.

Section ReleaseFacts2.
Import Effects Update Releases.
Context {W : Type} (env : Env W).

Ltac logs :=
  match goal with
  | |- context [quiet_log env ?b ?o ?t ?c ?d ?w] =>
      let Hbg := fresh "Hbg" in
      let Hd := fresh "Hd" in
      destruct (quiet_log_dialogs env b o t c d w) as (? & ? & -> & Hbg & Hd)
  end.

(** What the thread has shown once its trace is [t0 ++ t ++ ev ...]. *)
Lemma shown (t0 t t2 : list event) (s : string) (d : dialog) :
  dialogs t0 = [] → background t2 → dialogs t2 = [] →
  final_status (t0 ++ t ++ EvSetStatus s :: EvAfter d :: t2) = Some s
  ∧ dialogs (t0 ++ t ++ EvSetStatus s :: EvAfter d :: t2) = dialogs t ++ [d].
Proof.
  intros H0 Hb H2. split.
  - rewrite app_assoc. apply final_status_last.
    constructor; [reflexivity|exact Hb].
  - rewrite !dialogs_app, H0.
    change (dialogs (EvSetStatus s :: EvAfter d :: t2)) with (d :: dialogs t2).
    by rewrite H2.
Qed.

Lemma http_error_run w w0 t0 bound w1 resp :
  prelude env w = (w0, t0, Ok bound) →
  requests_get env api_url 10 w0 = (w1, Ok resp) →
  http_status resp ≠ 200 →
  ∃ w2 t2,
    check_updates_thread env w =
      (w2, t0 ++ [EvHttpGet api_url 10] ++
           EvSetStatus "检查失败" :: EvAfter (WarnHttp (http_status resp)) :: t2,
       Ok tt)
    ∧ background t2 ∧ dialogs t2 = [].
Proof.
  intros Hp Hget Hst.
  rewrite (thread_after_prelude env w w0 t0 bound Hp).
  unfold try_except, fetch, bind, emit, call. simpl. rewrite Hget. simpl.
  apply Z.eqb_neq in Hst. rewrite Hst. logs. simpl.
  eexists _, _. split; [reflexivity|]. by split.
Qed.
End ReleaseFacts2.

(** X16. An answer whose HTTP status is not 200 is never read as release
    data: the thread ends normally, the status line ends on the failure
    text and the one dialog scheduled names the status received. *)
Theorem http_error_is_reported {W : Type} (env : Update.Env W) (w : W)
    (w0 w1 : W) (t0 : list Update.event) (bound : bool)
    (resp : Update.response) :
  Update.prelude env w = (w0, t0, Effects.Ok bound) →
  Update.requests_get env Update.api_url 10 w0 = (w1, Effects.Ok resp) →
  Update.http_status resp ≠ 200 →
  let run := Update.check_updates_thread env w in
  Effects.outcome_of run = Effects.Ok tt
  ∧ Update.final_status (Effects.trace_of run) = Some "检查失败"
  ∧ Releases.dialogs (Effects.trace_of run) =
      [Update.WarnHttp (Update.http_status resp)].
Proof.
  intros Hp Hget Hst run.
  destruct (http_error_run env w w0 t0 bound w1 resp Hp Hget Hst)
    as (w2 & t2 & Hrun & Hb & Hd).
  subst run. rewrite Hrun. unfold Effects.outcome_of, Effects.trace_of.
  cbn [fst snd]. split; [reflexivity|].
  apply (shown t0 [Update.EvHttpGet Update.api_url 10] t2); try done.
  by eapply prelude_dialogs.
Qed.

Lemma http_error_is_reported_witness :
  Releases.dialogs
    (Effects.trace_of
       (Update.check_updates_thread
          (Releases.serving
             {| Update.http_status := 403;
                Update.json := Effects.Ok ∅ |}) tt))
  = [Update.WarnHttp 403].
Proof.
  exact (proj2 (proj2
    (http_error_is_reported
       (Releases.serving
          {| Update.http_status := 403; Update.json := Effects.Ok ∅ |})
       tt tt tt _ false _ eq_refl eq_refl ltac:(discriminate)))).
Defined.

Section ReleaseFacts3.
Import Effects Update Releases.
Context {W : Type} (env : Env W).

Ltac logs :=
  match goal with
  | |- context [quiet_log env ?b ?o ?t ?c ?d ?w] =>
      let Hbg := fresh "Hbg" in
      let Hd := fresh "Hd" in
      destruct (quiet_log_dialogs env b o t c d w) as (? & ? & -> & Hbg & Hd)
  end.

Lemma unparsed_compares_equal (a b : string) :
  Version.parts a = None → Version._compare_versions a b = 0.
Proof.
  intros Ha. unfold Version._compare_versions, Version.compare_body.
  by rewrite Ha.
Qed.

Section Answered.
Context (w w0 w1 : W) (t0 : list event) (bound : bool) (resp : response)
  (info : gmap string value).
Hypothesis Hp : prelude env w = (w0, t0, Ok bound).
Hypothesis Hget : requests_get env api_url 10 w0 = (w1, Ok resp).
Hypothesis Hst : http_status resp = 200.
Hypothesis Hjson : json resp = Ok info.

Lemma up_to_date_run tag :
  default (VStr "") (info !! "tag_name") = VStr tag →
  Version._compare_versions (lstrip_v tag) current_version ≤ 0 →
  ∃ w2 t2,
    check_updates_thread env w =
      (w2, t0 ++ [EvHttpGet api_url 10] ++
           EvSetStatus "已是最新版本" :: EvAfter (InfoLatest current_version)
             :: t2,
       Ok tt)
    ∧ background t2 ∧ dialogs t2 = [].
Proof.
  intros Htag Hcmp.
  rewrite (thread_after_prelude env w w0 t0 bound Hp).
  unfold try_except, fetch, bind, emit, call. simpl. rewrite Hget. simpl.
  rewrite Hst. simpl. rewrite Hjson. simpl. rewrite Htag. simpl.
  assert ((Version._compare_versions (lstrip_v tag) current_version >? 0) = false)
    as -> by (rewrite Z.gtb_ltb; by apply Z.ltb_ge).
  logs. simpl. eexists _, _. split; [reflexivity|]. by split.
Qed.

Lemma newer_run tag notes :
  default (VStr "") (info !! "tag_name") = VStr tag →
  0 < Version._compare_versions (lstrip_v tag) current_version →
  default (VStr "") (info !! "body") = VStr notes →
  ∃ w2 t2 message,
    check_updates_thread env w =
      (w2, t0 ++ [EvHttpGet api_url 10] ++
           EvSetStatus "发现新版本！" ::
           t2 ++ [EvAfter (AskUpdate message
                             (default (VStr "") (info !! "html_url")))],
       Ok tt)
    ∧ background t2 ∧ dialogs t2 = [].
Proof.
  intros Htag Hcmp Hbody.
  rewrite (thread_after_prelude env w w0 t0 bound Hp).
  unfold try_except, fetch, bind, emit, call. simpl. rewrite Hget. simpl.
  rewrite Hst. simpl. rewrite Hjson. simpl. rewrite Htag. simpl.
  assert ((Version._compare_versions (lstrip_v tag) current_version >? 0) = true)
    as -> by (rewrite Z.gtb_ltb; by apply Z.ltb_lt).
  rewrite Hbody. simpl.
  logs. simpl. eexists _, _, _. split; [reflexivity|]. by split.
Qed.


End Answered.
End ReleaseFacts3.

(** X17. A release that is not newer than the running version is reported
    as up to date, and so is one whose tag does not parse as a version:
    the status line ends on the up-to-date text and the one dialog
    scheduled is the up-to-date notice. *)
Theorem unparsed_or_older_tag_reads_up_to_date {W : Type}
    (env : Update.Env W) (w w0 w1 : W) (t0 : list Update.event)
    (bound : bool) (resp : Update.response) (info : gmap string Effects.value)
    (tag : string) :
  Update.prelude env w = (w0, t0, Effects.Ok bound) →
  Update.requests_get env Update.api_url 10 w0 = (w1, Effects.Ok resp) →
  Update.http_status resp = 200 →
  Update.json resp = Effects.Ok info →
  default (Effects.VStr "") (info !! "tag_name") = Effects.VStr tag →
  Version.parts (Update.lstrip_v tag) = None
  ∨ Version._compare_versions (Update.lstrip_v tag) Update.current_version ≤ 0 →
  let run := Update.check_updates_thread env w in
  Effects.outcome_of run = Effects.Ok tt
  ∧ Update.final_status (Effects.trace_of run) = Some "已是最新版本"
  ∧ Releases.dialogs (Effects.trace_of run) =
      [Update.InfoLatest Update.current_version].
Proof.
  intros Hp Hget Hst Hjson Htag Hcmp run.
  assert (Version._compare_versions (Update.lstrip_v tag)
            Update.current_version ≤ 0) as Hle.
  { destruct Hcmp as [Hnone|Hle]; [|exact Hle].
    by rewrite (unparsed_compares_equal _ _ Hnone). }
  destruct (up_to_date_run env w w0 w1 t0 bound resp info Hp Hget Hst Hjson
              tag Htag Hle) as (w2 & t2 & Hrun & Hb & Hd).
  subst run. rewrite Hrun. unfold Effects.outcome_of, Effects.trace_of.
  cbn [fst snd]. split; [reflexivity|].
  apply (shown t0 [Update.EvHttpGet Update.api_url 10] t2); try done.
  by eapply prelude_dialogs.
Qed.

Lemma unparsed_or_older_tag_reads_up_to_date_witness :
  Update.final_status
    (Effects.trace_of
       (Update.check_updates_thread
          (Releases.serving (Releases.release (Effects.VStr "release-6.0") None))
          tt))
  = Some "已是最新版本".
Proof.
  exact (proj1 (proj2
    (unparsed_or_older_tag_reads_up_to_date
       (Releases.serving (Releases.release (Effects.VStr "release-6.0") None))
       tt tt tt _ false _ _ "release-6.0" eq_refl eq_refl eq_refl eq_refl
       eq_refl (or_introl eq_refl)))).
Defined.

(** X18. A release whose tag, leading [v]s dropped, compares newer than
    the running version and whose notes are a string (or absent) is
    announced: the status line ends on the new-version text and the one
    dialog scheduled is the offer to open the release's download page. *)
Theorem newer_release_is_announced {W : Type}
    (env : Update.Env W) (w w0 w1 : W) (t0 : list Update.event)
    (bound : bool) (resp : Update.response) (info : gmap string Effects.value)
    (tag notes : string) :
  Update.prelude env w = (w0, t0, Effects.Ok bound) →
  Update.requests_get env Update.api_url 10 w0 = (w1, Effects.Ok resp) →
  Update.http_status resp = 200 →
  Update.json resp = Effects.Ok info →
  default (Effects.VStr "") (info !! "tag_name") = Effects.VStr tag →
  0 < Version._compare_versions (Update.lstrip_v tag) Update.current_version →
  default (Effects.VStr "") (info !! "body") = Effects.VStr notes →
  let run := Update.check_updates_thread env w in
  Effects.outcome_of run = Effects.Ok tt
  ∧ Update.final_status (Effects.trace_of run) = Some "发现新版本！"
  ∧ ∃ message,
      Releases.dialogs (Effects.trace_of run) =
        [Update.AskUpdate message
           (default (Effects.VStr "") (info !! "html_url"))].
Proof.
  intros Hp Hget Hst Hjson Htag Hcmp Hbody run.
  destruct (newer_run env w w0 w1 t0 bound resp info Hp Hget Hst Hjson
              tag notes Htag Hcmp Hbody) as (w2 & t2 & message & Hrun & Hb & Hd).
  subst run. rewrite Hrun. unfold Effects.outcome_of, Effects.trace_of.
  cbn [fst snd]. split; [reflexivity|]. split.
  - rewrite app_assoc. apply final_status_last.
    apply Forall_app. split; [exact Hb|]. by repeat constructor.
  - exists message. rewrite !dialogs_app, (prelude_dialogs env _ _ _ _ Hp).
    simpl. change (omap _ (t2 ++ ?l)) with (Releases.dialogs (t2 ++ l)).
    by rewrite dialogs_app, Hd.
Qed.

Lemma newer_release_is_announced_witness :
  Update.final_status
    (Effects.trace_of
       (Update.check_updates_thread
          (Releases.serving
             (Releases.release (Effects.VStr "v5.2")
                (Some (Effects.VStr "fixes")))) tt))
  = Some "发现新版本！".
Proof.
  exact (proj1 (proj2
    (newer_release_is_announced
       (Releases.serving
          (Releases.release (Effects.VStr "v5.2")
             (Some (Effects.VStr "fixes"))))
       tt tt tt _ false _ _ "v5.2" "fixes" eq_refl eq_refl eq_refl eq_refl
       eq_refl eq_refl eq_refl))).
Defined.



(** ** The encryption check of the panel *)

Section CheckFacts.
Import Effects Gui Check.
Context {W : Type} (env : Check.Env W).

Lemma quiet_panel t : quiet t → panel t = [].
Proof.
  induction 1 as [|ev t Hev _ IH]; [reflexivity|].
  unfold panel in *. destruct ev; try discriminate; simpl; exact IH.
Qed.

Lemma panel_app t1 t2 : panel (t1 ++ t2) = panel t1 ++ panel t2.
Proof. apply omap_app. Qed.

(** A logging block with the warning handler returns and stays quiet. *)
Lemma warned_spec (body : Effects.M W event unit) w :
  (∀ w', quiet (trace_of (body w'))) →
  ∃ w1 t, try_except body (warn (W:=W)) w = (w1, t, Ok tt) ∧ quiet t.
Proof.
  intros Hb. unfold try_except, warn, emit. specialize (Hb w).
  unfold trace_of in Hb.
  destruct (body w) as [[w1 t] [[]|e]]; simpl in *.
  - eauto.
  - eexists _, _. split; [reflexivity|].
    apply Forall_app. split; [exact Hb|]. by repeat constructor.
Qed.

Lemma logger_manager_quiet bound (w : W) :
  quiet (trace_of (logger_manager (W:=W) bound w)).
Proof. destruct bound; constructor. Qed.

Lemma start_log_spec path w :
  ∃ w1 t bound, start_log env path w = (w1, t, Ok bound) ∧ quiet t.
Proof.
  unfold start_log, bind, try_except at 1, call, ret, warn, emit.
  destruct (get_logger_manager (base env) w) as [w1 [[]|e]]; simpl.
  - destruct (warned_spec
                (log (base env) (Operation "加密检测开始" path "进行中" None)) w1
                ltac:(intros; apply log_quiet)) as (w2 & t & Ht & Hq).
    unfold warn, emit in Ht. rewrite Ht. simpl. rewrite app_nil_r.
    eexists _, _, _. split; [reflexivity|exact Hq].
  - eexists _, _, _. split; [reflexivity|]. by repeat constructor.
Qed.

Lemma display_all (results : list DetectionResult) (w : W) :
  ∃ t, for_each results (display_check_result (W:=W)) w = (w, t, Ok tt)
       ∧ panel t = line_of <$> results.
Proof.
  induction results as [|r results (t & IH & Hp)]; simpl.
  - by eexists.
  - unfold bind at 1. unfold display_check_result at 1.
    unfold add_result, emit. rewrite IH.
    eexists. split; [reflexivity|]. simpl. by rewrite Hp.
Qed.
End CheckFacts.


Section CheckFacts2.
Import Effects Gui Check.
Context {W : Type} (env : Check.Env W).

Ltac blocks :=
  repeat match goal with
  | |- context [try_except ?body warn ?w] =>
      let Hq := fresh "Hq" in
      destruct (warned_spec body w) as (? & ? & -> & Hq);
      [ intros;
        repeat (first [ apply log_quiet | apply file_size_of_quiet
                      | apply logger_manager_quiet
                      | apply bind_quiet; intros ])
      | simpl ]
  end.

Section Started.
Context (path : string) (w w0 : W) (t0 : list event) (bound : bool).
Hypothesis Hpath : path ≠ "".
Hypothesis Hs : start_log env path w = (w0, t0, Ok bound).

Lemma start_log_quiet : quiet t0.
Proof.
  destruct (start_log_spec env path w) as (w0' & t0' & bound' & Hs' & Hq).
  rewrite Hs in Hs'. by injection Hs' as _ <- _.
Qed.

Ltac start :=
  unfold check_encryption; rewrite (proj2 (String.eqb_neq _ _) Hpath);
  unfold bind at 1; unfold emit at 1; unfold bind at 1;
  unfold add_result at 1; unfold emit at 1;
  unfold bind at 1; rewrite Hs;
  unfold bind at 1; unfold ask at 1.

Lemma check_directory w1 results :
  isdir env path w0 = true →
  scan_directory env path w0 = (w1, Ok results) →
  ∃ w2 t,
    check_encryption env path w = (w2, t, Ok tt)
    ∧ panel t =
        {| message := "正在检查: " +:+ path; tag := "debug" |}
        :: (line_of <$> results).
Proof.
  intros Hd Hscan. pose proof start_log_quiet as Hq0. start. rewrite Hd.
  unfold bind at 1. unfold call at 1. rewrite Hscan.
  unfold bind at 1. blocks.
  destruct (display_all results x) as (t & -> & Hp).
  eexists _, _. split; [reflexivity|].
  cbn [app].
  change (panel (EvClearResults :: EvAddResult ?m ?g :: ?l))
    with (Build_report m g :: panel l).
  by rewrite !panel_app, Hp, (quiet_panel t0 Hq0), (quiet_panel x0 Hq).
Qed.

Lemma check_single w1 result :
  isdir env path w0 = false →
  get_detection_result (base env) path w0 = (w1, Ok result) →
  ∃ w2 t,
    check_encryption env path w = (w2, t, Ok tt)
    ∧ panel t =
        [{| message := "正在检查: " +:+ path; tag := "debug" |};
         line_of result].
Proof.
  intros Hd Hget. pose proof start_log_quiet as Hq0. start. rewrite Hd.
  unfold bind at 1. unfold emit at 1.
  unfold bind at 1. unfold call at 1. rewrite Hget.
  unfold bind at 1. blocks.
  unfold display_check_result, add_result, emit.
  eexists _, _. split; [reflexivity|].
  cbn [app].
  change (panel (EvClearResults :: EvAddResult ?m ?g :: ?l))
    with (Build_report m g :: panel l).
  rewrite !panel_app.
  change (panel (EvClassify path :: ?l)) with (panel l).
  by rewrite !panel_app, (quiet_panel t0 Hq0), (quiet_panel x0 Hq).
Qed.

Lemma check_scan_raises w1 e :
  isdir env path w0 = true →
  scan_directory env path w0 = (w1, Raise e) →
  ∃ w2 t,
    check_encryption env path w = (w2, t, Raise e)
    ∧ panel t = [{| message := "正在检查: " +:+ path; tag := "debug" |}].
Proof.
  intros Hd Hscan. pose proof start_log_quiet as Hq0. start. rewrite Hd.
  unfold bind at 1. unfold call at 1. rewrite Hscan.
  eexists _, _. split; [reflexivity|].
  cbn [app].
  change (panel (EvClearResults :: EvAddResult ?m ?g :: ?l))
    with (Build_report m g :: panel l).
  by rewrite !panel_app, (quiet_panel t0 Hq0).
Qed.

Lemma check_classify_raises w1 e :
  isdir env path w0 = false →
  get_detection_result (base env) path w0 = (w1, Raise e) →
  ∃ w2 t,
    check_encryption env path w = (w2, t, Raise e)
    ∧ panel t = [{| message := "正在检查: " +:+ path; tag := "debug" |}].
Proof.
  intros Hd Hget. pose proof start_log_quiet as Hq0. start. rewrite Hd.
  unfold bind at 1. unfold emit at 1.
  unfold bind at 1. unfold call at 1. rewrite Hget.
  eexists _, _. split; [reflexivity|].
  cbn [app].
  change (panel (EvClearResults :: EvAddResult ?m ?g :: ?l))
    with (Build_report m g :: panel l).
  rewrite !panel_app.
  change (panel (EvClassify path :: ?l)) with (panel l).
  by rewrite (quiet_panel t0 Hq0).
Qed.
End Started.
End CheckFacts2.

(** X20. The check shows its heading and then one line per result, in the
    order of the results: every result of the scan for a directory, the
    one classification for anything else.  A log that cannot be imported
    or written changes nothing of this. *)
Theorem check_shows_one_line_per_result {W : Type} (env : Check.Env W)
    (path : string) (w : W) :
  path ≠ "" →
  let w0 := Effects.world_of (Check.start_log env path w) in
  let run := Check.check_encryption env path w in
  let heading :=
    {| Gui.message := "正在检查: " +:+ path; Gui.tag := "debug" |} in
  (∀ w1 results,
     Check.isdir env path w0 = true →
     Check.scan_directory env path w0 = (w1, Effects.Ok results) →
     Effects.outcome_of run = Effects.Ok tt
     ∧ Check.panel (Effects.trace_of run) =
         heading :: (Check.line_of <$> results))
  ∧ (∀ w1 result,
       Check.isdir env path w0 = false →
       Gui.get_detection_result (Check.base env) path w0 =
         (w1, Effects.Ok result) →
       Effects.outcome_of run = Effects.Ok tt
       ∧ Check.panel (Effects.trace_of run) = [heading; Check.line_of result]).
Proof.
  intros Hpath w0 run heading.
  destruct (start_log_spec env path w) as (w0' & t0 & bound & Hs & _).
  assert (w0 = w0') as -> by (subst w0; by rewrite Hs).
  split.
  - intros w1 results Hd Hscan.
    destruct (check_directory env path w w0' t0 bound Hpath Hs w1 results
                Hd Hscan) as (w2 & t & Hrun & Hp).
    subst run. by rewrite Hrun.
  - intros w1 result Hd Hget.
    destruct (check_single env path w w0' t0 bound Hpath Hs w1 result
                Hd Hget) as (w2 & t & Hrun & Hp).
    subst run. by rewrite Hrun.
Qed.

Lemma check_shows_one_line_per_result_witness :
  Check.panel (Effects.trace_of (Check.check_encryption Scans.check_env "docs" tt))
  = [ {| Gui.message := "正在检查: docs"; Gui.tag := "debug" |};
      {| Gui.message := "未加密: plain.txt"; Gui.tag := "info" |};
      {| Gui.message := "已加密: secret.doc"; Gui.tag := "warning" |};
      {| Gui.message := "未识别: notes.bin"; Gui.tag := "warning" |} ].
Proof.
  exact (proj2 (proj1
    (check_shows_one_line_per_result Scans.check_env "docs" tt
       ltac:(discriminate))
    tt Scans.scanned eq_refl eq_refl)).
Defined.

(** X21. The check has no handler around the detector: when the scan of a
    directory or the classification of a file raises, the exception
    leaves [check_encryption], and the panel is left with the heading
    alone. *)
Theorem check_lets_detector_failures_escape {W : Type} (env : Check.Env W)
    (path : string) (w : W) (e : Effects.exn) :
  path ≠ "" →
  let w0 := Effects.world_of (Check.start_log env path w) in
  let run := Check.check_encryption env path w in
  (∃ w1,
     (Check.isdir env path w0 = true
      ∧ Check.scan_directory env path w0 = (w1, Effects.Raise e))
     ∨ (Check.isdir env path w0 = false
        ∧ Gui.get_detection_result (Check.base env) path w0 =
            (w1, Effects.Raise e))) →
  Effects.outcome_of run = Effects.Raise e
  ∧ Check.panel (Effects.trace_of run) =
      [{| Gui.message := "正在检查: " +:+ path; Gui.tag := "debug" |}].
Proof.
  intros Hpath w0 run [w1 Hcase].
  destruct (start_log_spec env path w) as (w0' & t0 & bound & Hs & _).
  assert (w0 = w0') as -> by (subst w0; by rewrite Hs).
  destruct Hcase as [[Hd Hscan]|[Hd Hget]].
  - destruct (check_scan_raises env path w w0' t0 bound Hpath Hs w1 e
                Hd Hscan) as (w2 & t & Hrun & Hp).
    subst run. by rewrite Hrun.
  - destruct (check_classify_raises env path w w0' t0 bound Hpath Hs w1 e
                Hd Hget) as (w2 & t & Hrun & Hp).
    subst run. by rewrite Hrun.
Qed.

Lemma check_lets_detector_failures_escape_witness :
  Effects.outcome_of (Check.check_encryption Scans.check_env "locked.doc" tt)
  = Effects.Raise Demo.PermissionError.
Proof.
  exact (proj1
    (check_lets_detector_failures_escape Scans.check_env "locked.doc" tt
       Demo.PermissionError ltac:(discriminate)
       (ex_intro _ tt (or_intror (conj eq_refl eq_refl))))).
Defined.
